(* ===== verification/_CoqProject ===== *)
-Q . S2P
Prelude.v
Vec.v
Binary32.v
Car.v
Obstacles.v
World.v
Ideal.v
Run32.v
