(* ===== verification/Prelude.v ===== *)
(** * A verified model of the plse-game-jam-2024 driving demo

    The repository is one Rust file, [src/src/main.rs], a Bevy application:
    a car sprite that accelerates and steers on keyboard input, a field of
    obstacle cones laid out from a table, a camera-follow update for the
    cones, a distance-based collision check that resets the car, and a HUD
    label with the elapsed time.  [setup] spawns the entities once; four
    [Update] systems then run once per frame, in an order Bevy does not
    fix ([main], lines 5-14).  The systems share the car: [sprite_movement]
    and [collision_update_system] write it, [obstacle_update_system] reads
    its [y]; [text_update_system] shares nothing.

    ** Layout of the development (in dependency order)

    - [Prelude] (this file): the scalar interface [Scalar] (the f32
      operations the program uses: [+ - * /], unary minus, [sqrt], [<],
      [floor], integer literals) with its notations in [scalar_scope]; the
      interfaces [Std] and [Display] of the Rust standard library routines
      that are not modelled bit by bit ([sin_cos], [atan2], [FRAC_PI_2],
      float formatting); the [outcome] type of Rust panics with its bind
      and [omapM] (a loop whose body may panic); the hint databases
      [game] and [game_rw] and the shared list lemmas.
    - [Vec]: glam's [Vec2], [Vec3], [Quat] and Bevy's [Transform], with
      exactly the operations the program calls ([length], [normalize],
      [rotate], [from_angle], [to_angle], [distance], ...), written as glam
      0.25 writes them, generic in the scalar.
    - [Binary32]: the IEEE-754 binary32 instance of [Scalar], built on the
      Standard Library's executable [SpecFloat] (precision 24, emax 128,
      round to nearest even): every f32 operation of the program is
      computed exactly as the hardware does, so concrete runs are checked
      by [vm_compute]; [to_bits] states values by their bit patterns.
    - [Car]: [struct Car] as [Car.t]; the body of [sprite_movement] as
      [steer] (lines 141-156), [integrate] (158-166) and [sync_sprite]
      (168-173), composed by [sprite_movement_car] and mapped over the
      query by [sprite_movement]; the car [setup] spawns.
    - [Obstacles]: [struct Obstacle], [lv1_turns], [setup_obstacles] (the
      two loops as [spawn_turns] and [spawn_row]),
      [obstacle_update_system] and [collision_update_system] (its loop body
      [collision_check], test [hits], [reset]).
    - [World]: the ECS world (camera count, car, obstacle and text
      entities in spawn order), [setup_world], [text_update_system],
      [run_system] (one system with its queries), [run_systems], [frame]
      (any order of the four systems) and [reachable].
    - [Ideal]: the instances of [Scalar] and [Std] on the real numbers.
    - [Run32]: binary32 runs of the car ([drive_car]) and the whole
      program's car in every world reached with no steering key.

    ** What the theorems show (claim ids C1-C19)

    - Collision ([Obstacles], C1, C5, C6): [collision_update_system]
      panics unless exactly one car exists and otherwise equals its
      declarative reading (reset iff some obstacle is within 100 of the
      car's position before the loop); it is idempotent and independent of
      the order the query yields obstacles (a [Proper] instance for
      [Permutation]).
    - Steering keys ([Car], C2, C3): no key keeps the direction and the
      centre sprite; only [A] and [D] are read, and [A] wins.
    - Camera follow and layout ([Obstacles], C7, C8): the panic with no
      car and the transform written on every branch; 2 x (sum of counts)
      obstacles, 120 for [lv1_turns].
    - The frame loop ([World], C9-C11, C18, C19), by rule induction on
      [reachable]: no system ever panics, there is always exactly one car
      with its constants, the obstacles never move in the world, a
      frame's effect on the car depends only on the relative order of the
      two systems that write it, and the cones are drawn against the car
      as the writers that ran before the camera follow left it; the HUD
      system on every branch.
    - Binary32, the program's own arithmetic ([Run32], C4, C12-C15): the
      straight run from [setup] gains exactly 1 of speed per frame for 40
      frames, then alternates forever between 40 and 39.999996 (the spec
      expects equality); in every world reached with no steering key,
      under any frame orders and for any number of frames, the car is a
      state of that run, so its f32 speed never exceeds [top_speed] and
      it faces [+y]; for 200 frames, in any frame orders, no collision
      resets it; at [y = 2^30] the car stops advancing.
    - Exact arithmetic ([Ideal], C16, C17), for facts that do not depend
      on rounding: steering at rest does not turn the car, and driving
      with no steering key never crashes in any world reached that way,
      however many frames.

    ** Correspondence with the code

    A Rust struct is a [Record] in a [Module] of the same name ([Car.t],
    [Obstacle.t]); a Bevy system is a function from the components it
    queries to [outcome] of the components it writes; [unwrap] on an empty
    query, [single_mut] on a query with zero or several matches and an
    out-of-range index are the [Panic] values of [outcome].  The assets are
    their path strings (Bevy returns the same handle for the same path).
    The entities of one archetype are a list in spawn order, the order
    Bevy's queries yield them.

    ** Bounds and choices

    The scalar is kept abstract so that one definition of each system
    serves both instances.  Integer literals are [of_Z n]; the decimal
    literals [0.001], [0.1], [0.2] are [of_Z 1 / of_Z 1000] and the like,
    which in binary32 is the correctly rounded value Rust gives the
    literal, since both operands are exact ([Binary32.lit_0_001] checks
    the bit pattern).  Loops over [0..num] and over the query are
    structural recursion; nothing needs fuel.  The binary32 runs are
    stated for every [Std f32] (libm) and every [Display f32]: the car's
    state never reads them when no key is held.  The no-collision run in
    f32 is proved for 200 frames, in every frame order: a boolean check
    ([Run32.clear_run]) evaluates the 120 distance tests of each of the
    201 car states, which covers the acceleration phase (40 frames) and
    the car's passage past the last obstacle row ([y = 5800], reached
    near frame 165).  Beyond it the f32 states still grow in [y], but the
    proof would need the monotonicity of rounding (below); the speed
    bound and the oscillation are proved for every frame.

    ** Not modelled

    Rendering, windowing, the asset server's loading, text layout and the
    Bevy scheduler's threads: Bevy runs systems with conflicting accesses
    one after the other, so a frame is modelled as a serial order of the
    four systems, any order allowed.  The libm routines [sin_cos] and
    [atan2] and Rust's float formatting are parameters ([Std], [Display]);
    theorems that need a property of them state it or use the exact
    instance of [Ideal].  [Ideal]'s reals are not the program's
    arithmetic: only properties that hold for f32 as well are proved
    there.  In f32 the clamp does not bound the speed once the velocity
    is off the axis ([Run32.integrate_exceeds_top_speed]), and steering
    does not keep the facing direction a unit vector (checked with the
    example libm of [Binary32] in [Run32]).  The [KillerObstacle] component is only used by
    commented-out code.

    ** Plan for the next sittings

    Monotonicity of binary32 rounding (on [SpecFloat]: [binary_normalize]
    and [SFsqrt] are monotone) to prove in f32, as [Ideal] does in exact
    arithmetic, that the straight run never collides for every frame, not
    only 200; a bound on the f32 speed overshoot and on the drift of the
    facing direction's length under f32 steering, given an error bound on
    libm's [sin_cos]; Rust's shortest round-trip float formatting for the
    HUD. *)

From Stdlib Require Import ZArith List String Lia Permutation.
Import ListNotations.

(** ** The scalar interface: the f32 operations the program uses *)

Class Scalar (F : Type) : Type := {
  of_Z : Z -> F;
  fadd : F -> F -> F;
  fsub : F -> F -> F;
  fmul : F -> F -> F;
  fdiv : F -> F -> F;
  fneg : F -> F;
  fsqrt : F -> F;
  fltb : F -> F -> bool;
  ffloor : F -> F
}.

(** The routines of Rust's [std] that the program calls on f32 and that
    are not modelled bit by bit: libm's [sin_cos] and [atan2] and the
    constant [FRAC_PI_2]. *)
Class Std (F : Type) : Type := {
  sin_cos : F -> F * F;
  atan2 : F -> F -> F;
  FRAC_PI_2 : F
}.

(** [impl Display for f32], as [format!("{}", v)] uses it. *)
Class Display (F : Type) : Type := { display : F -> string }.

Declare Scope scalar_scope.
Delimit Scope scalar_scope with sc.
Infix "+" := fadd : scalar_scope.
Infix "-" := fsub : scalar_scope.
Infix "*" := fmul : scalar_scope.
Infix "/" := fdiv : scalar_scope.
Notation "- x" := (fneg x) : scalar_scope.
Infix "<?" := fltb : scalar_scope.
Notation "'#' n" := (of_Z n%Z) (at level 1, n at level 0, format "'#' n") : scalar_scope.

(** ** Rust panics as values *)

Inductive panic : Type :=
  | UnwrapNone                    (** [Option::unwrap] on [None] *)
  | QuerySingleNoEntities         (** [Query::single_mut], no match *)
  | QuerySingleMultipleEntities   (** [Query::single_mut], several matches *)
  | IndexOutOfBounds (idx len : nat).

Inductive outcome (A : Type) : Type :=
  | Ok (a : A)
  | Panic (p : panic).
Arguments Ok {A} a.
Arguments Panic {A} p.

Definition obind {A B} (m : outcome A) (k : A -> outcome B) : outcome B :=
  match m with
  | Ok a => k a
  | Panic p => Panic p
  end.

Definition omap {A B} (f : A -> B) (m : outcome A) : outcome B :=
  obind m (fun a => Ok (f a)).

Declare Scope outcome_scope.
Delimit Scope outcome_scope with outcome.
Notation "x <- m ;; k" := (obind m (fun x => k))
  (at level 61, m at next level, right associativity) : outcome_scope.

Definition is_ok {A} (m : outcome A) : bool :=
  match m with Ok _ => true | Panic _ => false end.

Lemma obind_Ok {A B} (a : A) (k : A -> outcome B) : obind (Ok a) k = k a.
Proof. reflexivity. Qed.

Lemma obind_Panic {A B} (p : panic) (k : A -> outcome B) : obind (Panic p) k = Panic p.
Proof. reflexivity. Qed.

Lemma obind_eq_Ok {A B} (m : outcome A) (k : A -> outcome B) (b : B) :
  obind m k = Ok b -> exists a, m = Ok a /\ k a = Ok b.
Proof. destruct m; simpl; [eauto | discriminate]. Qed.

Lemma Ok_inj {A} (a b : A) : Ok a = Ok b -> a = b.
Proof. congruence. Qed.

Create HintDb game.
Create Rewrite HintDb game_rw.
#[export] Hint Rewrite @obind_Ok @obind_Panic : game_rw.

(** Decompose [obind _ _ = Ok _] hypotheses and [Ok] equalities. *)
Ltac outcome_inv :=
  repeat match goal with
  | H : obind _ _ = Ok _ |- _ =>
      let a := fresh "a" in let Ha := fresh "Ha" in let Hk := fresh "Hk" in
      apply obind_eq_Ok in H; destruct H as (a & Ha & Hk)
  | H : Ok _ = Ok _ |- _ => apply Ok_inj in H; subst
  | H : Panic _ = Ok _ |- _ => discriminate H
  end.

(** ** Shared list lemmas *)

(** A loop whose body leaves a state unchanged for every element leaves
    it unchanged. *)
Lemma fold_left_fixed {A B} (f : A -> B -> A) (l : list B) (a : A) :
  (forall b, In b l -> f a b = a) -> fold_left f l a = a.
Proof.
  induction l as [|b l IH]; simpl; intros H; [reflexivity|].
  rewrite H by auto. apply IH. auto.
Qed.

(** A loop whose body, at a state [a] and an element [b], either returns
    [a] or a fixed state [r] that is itself fixed by every element ends
    in [a] or [r]. *)
Lemma fold_left_absorb {A B} (f : A -> B -> A) (r : A) (l : list B) :
  (forall b, f r b = r) -> fold_left f l r = r.
Proof. intros H. apply fold_left_fixed. auto. Qed.

Lemma existsb_perm {A} (p : A -> bool) (l1 l2 : list A) :
  Permutation l1 l2 -> existsb p l1 = existsb p l2.
Proof.
  induction 1; simpl; try congruence.
  destruct (p x), (p y); reflexivity.
Qed.

#[export] Hint Resolve fold_left_absorb existsb_perm : game.

(** [for x in &mut query { body }] when the body may panic: the first
    panic aborts the loop. *)
Fixpoint omapM {A B} (f : A -> outcome B) (l : list A) : outcome (list B) :=
  match l with
  | [] => Ok []
  | a :: l => obind (f a) (fun b => obind (omapM f l) (fun bs => Ok (b :: bs)))
  end.

Lemma omapM_Ok {A B} (f : A -> outcome B) (l : list A) (l' : list B) :
  omapM f l = Ok l' <-> Forall2 (fun a b => f a = Ok b) l l'.
Proof.
  revert l'. induction l as [|a l IH]; intros l'; cbn.
  - split; [intros H; inversion H; constructor | intros H; inversion H; reflexivity].
  - split.
    + intros H. outcome_inv. constructor; [assumption | apply IH; assumption].
    + intros H. inversion H as [|? b ? bs Hb Hbs]; subst.
      rewrite Hb. cbn. apply IH in Hbs. rewrite Hbs. reflexivity.
Qed.

Lemma omapM_total {A B} (f : A -> outcome B) (l : list A) :
  (forall a, In a l -> exists b, f a = Ok b) -> exists l', omapM f l = Ok l'.
Proof.
  induction l as [|a l IH]; intros H; cbn; [eauto|].
  destruct (H a (or_introl eq_refl)) as [b Hb]. rewrite Hb. cbn.
  destruct IH as [l' Hl']; [intros; apply H; right; assumption|].
  rewrite Hl'. cbn. eauto.
Qed.

Lemma Permutation_filter_bool {A} (f : A -> bool) (l l' : list A) :
  Permutation l l' -> Permutation (filter f l) (filter f l').
Proof.
  induction 1 as [| x l l' _ IH | x y l | l l' l'' _ IH1 _ IH2]; cbn.
  - constructor.
  - destruct (f x); [constructor|]; exact IH.
  - destruct (f x), (f y); solve [constructor | reflexivity].
  - eapply perm_trans; eassumption.
Qed.

Lemma existsb_false_Forall {A} (p : A -> bool) (l : list A) :
  Forall (fun a => p a = false) l -> existsb p l = false.
Proof. induction 1 as [|a l Ha _ IH]; cbn; [reflexivity|]. rewrite Ha. exact IH. Qed.
