(* ===== verification/Vec.v ===== *)
(** * glam's vectors and quaternion, Bevy's [Transform]

    The operations of glam 0.25 ([Vec2], [Vec3], [Quat]) and of Bevy's
    [Transform] that [src/src/main.rs] calls, generic in the scalar of
    [Prelude.Scalar], each written as glam writes its scalar (non-SIMD)
    path: [length] is [sqrt] of the dot product, [normalize] multiplies by
    [1.0 / length], [rotate] is complex multiplication, [from_angle] is
    [(cos, sin)] of libm's [sin_cos], [distance] is the length of the
    difference. *)

From Stdlib Require Import ZArith List.
From S2P Require Import Prelude.

Local Open Scope scalar_scope.

Module Vec2.
Section Vec2.
Context {F : Type}.

Record t := new { x : F; y : F }.

Context `{Scalar F}.

(** [impl Add for Vec2] and [AddAssign] *)
Definition add (a b : t) : t := new (x a + x b) (y a + y b).
(** [impl Sub for Vec2] *)
Definition sub (a b : t) : t := new (x a - x b) (y a - y b).
(** [impl Mul<f32> for Vec2] *)
Definition mul (a : t) (s : F) : t := new (x a * s) (y a * s).
(** [Vec2::dot] *)
Definition dot (a b : t) : F := x a * x b + y a * y b.
(** [Vec2::length] *)
Definition length (a : t) : F := fsqrt (dot a a).
(** [Vec2::length_recip]: [f32::recip] is [1.0 / x] *)
Definition length_recip (a : t) : F := #1 / length a.
(** [Vec2::normalize] *)
Definition normalize (a : t) : t := mul a (length_recip a).
(** [Vec2::rotate] *)
Definition rotate (a rhs : t) : t :=
  new (x a * x rhs - y a * y rhs) (y a * x rhs + x a * y rhs).
(** [Vec2::distance] *)
Definition distance (a b : t) : F := length (sub a b).

Context `{Std F}.

(** [Vec2::from_angle] *)
Definition from_angle (angle : F) : t :=
  let (s, c) := sin_cos angle in new c s.
(** [Vec2::to_angle] *)
Definition to_angle (a : t) : F := atan2 (y a) (x a).
End Vec2.
Arguments t : clear implicits.
End Vec2.

Module Vec3.
Section Vec3.
Context {F : Type}.
Record t := new { x : F; y : F; z : F }.
Context `{Scalar F}.
(** [Vec3::ONE] *)
Definition ONE : t := new #1 #1 #1.
(** [Vec3::splat], as in [Vec3::new(s, s, s)] *)
Definition splat (s : F) : t := new s s s.
End Vec3.
Arguments t : clear implicits.
End Vec3.

Module Quat.
Section Quat.
Context {F : Type}.
Record t := from_xyzw { x : F; y : F; z : F; w : F }.
Context `{Scalar F}.
(** [Quat::IDENTITY] *)
Definition IDENTITY : t := from_xyzw #0 #0 #0 #1.
Context `{Std F}.
(** [Quat::from_rotation_z]: [sin_cos(angle * 0.5)] *)
Definition from_rotation_z (angle : F) : t :=
  let (s, c) := sin_cos (angle * (#1 / #2)) in from_xyzw #0 #0 s c.
End Quat.
Arguments t : clear implicits.
End Quat.

Module Transform.
Section Transform.
Context {F : Type}.
Record t := mk { translation : Vec3.t F; rotation : Quat.t F; scale : Vec3.t F }.
Context `{Scalar F}.
(** [Transform::from_xyz] *)
Definition from_xyz (a b c : F) : t := mk (Vec3.new a b c) Quat.IDENTITY Vec3.ONE.
(** [transform.scale = s] *)
Definition with_scale (tf : t) (s : Vec3.t F) : t := mk (translation tf) (rotation tf) s.
(** [transform.translation.x = v] *)
Definition set_x (tf : t) (v : F) : t :=
  let tr := translation tf in
  mk (Vec3.new v (Vec3.y tr) (Vec3.z tr)) (rotation tf) (scale tf).
(** [transform.translation.y = v] *)
Definition set_y (tf : t) (v : F) : t :=
  let tr := translation tf in
  mk (Vec3.new (Vec3.x tr) v (Vec3.z tr)) (rotation tf) (scale tf).
(** [transform.rotation = q] *)
Definition set_rotation (tf : t) (q : Quat.t F) : t := mk (translation tf) q (scale tf).
End Transform.
Arguments t : clear implicits.
End Transform.
