(* ===== verification/Binary32.v ===== *)
(** * IEEE-754 binary32: the f32 instance of the scalar interface

    Rust's [f32] arithmetic is IEEE-754 binary32 with round to nearest,
    ties to even.  The Standard Library's [SpecFloat] defines the IEEE
    operations for any precision and exponent range, executably (on [Z]);
    binary32 is precision 24 and [emax] 128.  [+ - * / sqrt] are correctly
    rounded in IEEE-754, so these definitions are the f32 results bit for
    bit (NaN payloads aside, which the program never observes).  [floor]
    is written here on the representation: it is exact in IEEE-754.
    [to_bits] gives [f32::to_bits], to state concrete values by their bit
    patterns. *)

From Stdlib Require Import ZArith String DecimalString Floats.SpecFloat Lia.
From S2P Require Import Prelude.

Local Open Scope Z_scope.

Definition prec : Z := 24.
Definition emax : Z := 128.

Definition f32 : Type := spec_float.

(** [n as f32]: the integer rounded to binary32 (exact for |n| <= 2^24). *)
Definition f32_of_Z (n : Z) : f32 := binary_normalize prec emax n 0 false.

(** [f32::floor]: the greatest integer not above [x]; zeros, infinities
    and NaN are returned unchanged, as is a finite value of non-negative
    exponent (already an integer). *)
Definition f32_floor (x : f32) : f32 :=
  match x with
  | S754_finite s m e =>
      if 0 <=? e then x
      else
        let q := Z.shiftr (Zpos m) (- e) in
        if s then
          let exact := Z.shiftl q (- e) =? Zpos m in
          binary_normalize prec emax (- (if exact then q else q + 1)) 0 true
        else binary_normalize prec emax q 0 false
  | _ => x
  end.

#[export] Instance Scalar_f32 : Scalar f32 := {
  of_Z := f32_of_Z;
  fadd := SFadd prec emax;
  fsub := SFsub prec emax;
  fmul := SFmul prec emax;
  fdiv := SFdiv prec emax;
  fneg := SFopp;
  fsqrt := SFsqrt prec emax;
  fltb := SFltb;
  ffloor := f32_floor
}.

(** [f32::to_bits]: sign, 8-bit biased exponent, 23-bit fraction; NaN is
    the canonical quiet NaN. *)
Definition to_bits (x : f32) : Z :=
  match x with
  | S754_zero s => if s then 2 ^ 31 else 0
  | S754_infinity s => (if s then 2 ^ 31 else 0) + 255 * 2 ^ 23
  | S754_nan => 2143289344
  | S754_finite s m e =>
      let sign := if s then 2 ^ 31 else 0 in
      if 2 ^ 23 <=? Zpos m
      then sign + (e + 150) * 2 ^ 23 + (Zpos m - 2 ^ 23)
      else sign + Zpos m
  end.

(** The decimal literals of the program as Rust rounds them. *)
Example lit_0_001 : to_bits (f32_of_Z 1 / f32_of_Z 1000)%sc = 981668463.
Proof. vm_compute. reflexivity. Qed.

Example lit_0_1 : to_bits (f32_of_Z 1 / f32_of_Z 10)%sc = 1036831949.
Proof. vm_compute. reflexivity. Qed.

(** A [Std] instance for running concrete binary32 examples.  libm's
    [sin_cos] is replaced by its degree-5 Taylor polynomials evaluated in
    binary32 (the steering angles of the program are at most
    [0.001 * 40 = 0.04], where the truncation error is below 1e-12), and
    [atan2] by the constant 0: it feeds only the sprite's rendered
    rotation.  No theorem about the program
    depends on this instance; the theorems on concrete runs quantify over
    every [Std f32], and a file that runs an example declares it a local
    instance. *)
Definition taylor_sin_cos (a : f32) : f32 * f32 :=
  let a2 := (a * a)%sc in
  (a * (f32_of_Z 1 - a2 / f32_of_Z 6 * (f32_of_Z 1 - a2 / f32_of_Z 20)),
   f32_of_Z 1 - a2 / f32_of_Z 2 * (f32_of_Z 1 - a2 / f32_of_Z 12))%sc.

Definition Std_f32_example : Std f32 := {|
  sin_cos := taylor_sin_cos;
  atan2 := fun _ _ => f32_of_Z 0;
  FRAC_PI_2 := S754_finite false 13176795 (-23)
|}.

(** The integer an integral binary32 value denotes. *)
Definition f32_integral (x : f32) : option Z :=
  match x with
  | S754_zero _ => Some 0
  | S754_finite s m e =>
      if 0 <=? e then Some ((if s then -1 else 1) * Zpos m * 2 ^ e)
      else
        let q := Z.shiftr (Zpos m) (- e) in
        if Z.shiftl q (- e) =? Zpos m then Some (if s then - q else q) else None
  | _ => None
  end.

(** A [Display] instance for running the HUD on concrete inputs: Rust
    prints an integral f32 of magnitude below 2^24 as its decimal digits,
    which is what the HUD shows (the floor of a non-negative elapsed
    time).  Other values, and the sign of a negative zero, are outside
    what this instance covers; no theorem about the program depends on
    it. *)
Definition Display_f32_example : Display f32 := {|
  display := fun x =>
    match f32_integral x with
    | Some n => NilZero.string_of_int (Z.to_int n)
    | None => EmptyString
    end
|}.

(** Equality of representations, decided. *)
Definition f32_eqb (a b : f32) : bool :=
  match a, b with
  | S754_zero s, S754_zero s' => Bool.eqb s s'
  | S754_infinity s, S754_infinity s' => Bool.eqb s s'
  | S754_nan, S754_nan => true
  | S754_finite s m e, S754_finite s' m' e' => Bool.eqb s s' && Pos.eqb m m' && Z.eqb e e'
  | _, _ => false
  end.

Lemma f32_eqb_eq (a b : f32) : f32_eqb a b = true <-> a = b.
Proof.
  destruct a, b; cbn; split; intros E; try discriminate;
    repeat match goal with
    | H : (_ && _)%bool = true |- _ => apply andb_prop in H as [? ?]
    | H : Bool.eqb _ _ = true |- _ => apply Bool.eqb_prop in H
    | H : Pos.eqb _ _ = true |- _ => apply Pos.eqb_eq in H
    | H : Z.eqb _ _ = true |- _ => apply Z.eqb_eq in H
    end; subst; try reflexivity; try (injection E as <- <- <-); try (injection E as <-);
    rewrite ?Bool.eqb_reflx, ?Pos.eqb_refl, ?Z.eqb_refl; reflexivity.
Qed.
