(* ===== verification/Car.v ===== *)
(** * The car: the [Car] component and the system [sprite_movement]

    [struct Car] (main.rs lines 27-34) is the record [Car.t]; the keyboard
    ([Res<ButtonInput<KeyCode>>]) is a predicate on key codes; a
    [Handle<Image>] is the path the asset server loaded it from.  The body
    of the loop of [sprite_movement] (lines 139-180) is split the way the
    code is: [steer] (lines 141-156), [integrate] (lines 158-166) and
    [sync_sprite] (lines 168-173), composed by [sprite_movement_car]; the
    system maps it over every entity of its query.  The theorems give its
    behaviour on each branch of the key test and the facts the world
    invariants need. *)

From Stdlib Require Import ZArith String List.
From S2P Require Import Prelude Vec Binary32.
Import ListNotations.

Local Open Scope scalar_scope.

Module Car.
Section Car.
Context {F : Type}.
Record t := mk {
  pos : Vec2.t F;
  vel : Vec2.t F;
  direction : Vec2.t F;
  base_acc : F;
  top_speed : F
}.
Definition with_pos (c : t) (p : Vec2.t F) : t :=
  mk p (vel c) (direction c) (base_acc c) (top_speed c).
Definition with_vel (c : t) (v : Vec2.t F) : t :=
  mk (pos c) v (direction c) (base_acc c) (top_speed c).
Definition with_direction (c : t) (d : Vec2.t F) : t :=
  mk (pos c) (vel c) d (base_acc c) (top_speed c).
End Car.
Arguments t : clear implicits.
End Car.

(** The keys the program reads are [KeyCode::KeyA] and [KeyCode::KeyD];
    every other key is one of [OtherKey]. *)
Inductive KeyCode : Type := KeyA | KeyD | OtherKey (code : nat).

Record ButtonInput : Type := { pressed : KeyCode -> bool }.

(** [Handle<Image>] and [AssetServer::load]: the asset server returns the
    same handle for the same path. *)
Definition Handle : Type := string.
Definition load (path : string) : Handle := path.

(** The three entities' components the query of [sprite_movement] sees. *)
Definition CarQuery (F : Type) : Type := (Car.t F * Transform.t F * Handle)%type.

Section Movement.
Context {F : Type} `{Scalar F} `{Std F}.

(** [0.001] *)
Definition steer_gain : F := #1 / #1000.

(** Lines 141-156: rotate the facing direction on [A] (else on [D]) by
    an angle proportional to the speed, and choose the sprite. *)
Definition steer (keyboard_input : ButtonInput) (car : Car.t F) : Car.t F * Handle :=
  if pressed keyboard_input KeyA then
    (Car.with_direction car
       (Vec2.rotate (Car.direction car)
          (Vec2.from_angle (steer_gain * Vec2.length (Car.vel car)))),
     load "racecar_left.png")
  else if pressed keyboard_input KeyD then
    (Car.with_direction car
       (Vec2.rotate (Car.direction car)
          (Vec2.from_angle ((- steer_gain) * Vec2.length (Car.vel car)))),
     load "racecar_right.png")
  else (car, load "racecar_center.png").

(** Lines 158-166: [vel += direction * base_acc]; if the speed exceeds
    [top_speed], [vel = vel.normalize() * top_speed]; [pos = pos + vel]. *)
Definition integrate (car : Car.t F) : Car.t F :=
  let car_velocity_update := Vec2.mul (Car.direction car) (Car.base_acc car) in
  let car := Car.with_vel car (Vec2.add (Car.vel car) car_velocity_update) in
  let car :=
    if Car.top_speed car <? Vec2.length (Car.vel car)
    then Car.with_vel car (Vec2.mul (Vec2.normalize (Car.vel car)) (Car.top_speed car))
    else car in
  Car.with_pos car (Vec2.add (Car.pos car) (Car.vel car)).

(** Lines 168-173: the sprite is drawn at [y = -200], [x = pos.x],
    rotated to the facing direction. *)
Definition sync_sprite (car : Car.t F) (transform : Transform.t F) : Transform.t F :=
  let transform := Transform.set_y transform (# (-200)) in
  let transform := Transform.set_x transform (Vec2.x (Car.pos car)) in
  Transform.set_rotation transform
    (Quat.from_rotation_z (Vec2.to_angle (Car.direction car) - FRAC_PI_2)).

(** Lines 139-180: one iteration of the loop.  The texture is written in
    every branch, so its previous value is not read. *)
Definition sprite_movement_car (keyboard_input : ButtonInput) (q : CarQuery F) : CarQuery F :=
  let '(car, transform, _) := q in
  let '(car, texture) := steer keyboard_input car in
  let car := integrate car in
  (car, sync_sprite car transform, texture).

(** The car [setup] spawns (lines 90-106): at [(100, 0)], at rest,
    facing [+y], with [base_acc = 1] and [top_speed = 40], drawn at
    scale [0.2]. *)
Definition initial_car : Car.t F :=
  Car.mk (Vec2.new #100 #0) (Vec2.new #0 #0) (Vec2.new #0 #1) #1 #40.
Definition initial_car_entity : CarQuery F :=
  (initial_car,
   Transform.with_scale (Transform.from_xyz #100 #0 #0) (Vec3.splat (#2 / #10)),
   load "racecar_center.png").

(** Lines 132-181: the system runs the body on every car entity. *)
Definition sprite_movement (keyboard_input : ButtonInput) (cars : list (CarQuery F))
  : list (CarQuery F) :=
  map (sprite_movement_car keyboard_input) cars.
End Movement.

(** ** Behaviour of [sprite_movement] *)

Section MovementFacts.
Context {F : Type} `{Scalar F} `{Std F}.

Lemma steer_unchanged_fields (kb : ButtonInput) (car : Car.t F) :
  let car' := fst (steer kb car) in
  Car.pos car' = Car.pos car /\ Car.vel car' = Car.vel car /\
  Car.base_acc car' = Car.base_acc car /\ Car.top_speed car' = Car.top_speed car.
Proof.
  unfold steer; destruct (pressed kb KeyA), (pressed kb KeyD); repeat split.
Qed.

Lemma integrate_unchanged_fields (car : Car.t F) :
  Car.direction (integrate car) = Car.direction car /\
  Car.base_acc (integrate car) = Car.base_acc car /\
  Car.top_speed (integrate car) = Car.top_speed car.
Proof.
  unfold integrate; cbn; destruct (_ <? _); repeat split.
Qed.

(** [integrate] reads the position only to advance it: the new velocity
    does not depend on it. *)
Lemma integrate_vel_indep_pos (car : Car.t F) (p : Vec2.t F) :
  Car.vel (integrate (Car.with_pos car p)) = Car.vel (integrate car).
Proof. unfold integrate; cbn; destruct (_ <? _); reflexivity. Qed.

(** [steer] reads only the direction and the velocity of the car. *)
Lemma steer_with_pos (kb : ButtonInput) (car : Car.t F) (p : Vec2.t F) :
  steer kb (Car.with_pos car p) =
  (Car.with_pos (fst (steer kb car)) p, snd (steer kb car)).
Proof.
  unfold steer; destruct (pressed kb KeyA), (pressed kb KeyD); reflexivity.
Qed.

(** With neither steering key held, [steer] keeps the car. *)
Lemma steer_no_steering (kb : ButtonInput) (car : Car.t F) :
  pressed kb KeyA = false -> pressed kb KeyD = false ->
  steer kb car = (car, load "racecar_center.png").
Proof. intros HA HD. unfold steer. rewrite HA, HD. reflexivity. Qed.

Lemma sprite_movement_car_eq (kb : ButtonInput) (car : Car.t F) tf tex :
  sprite_movement_car kb (car, tf, tex) =
  (integrate (fst (steer kb car)),
   sync_sprite (integrate (fst (steer kb car))) tf,
   snd (steer kb car)).
Proof. unfold sprite_movement_car. destruct (steer kb car); reflexivity. Qed.

Lemma length_sprite_movement (kb : ButtonInput) (cars : list (CarQuery F)) :
  length (sprite_movement kb cars) = length cars.
Proof. apply length_map. Qed.
End MovementFacts.

#[export] Hint Resolve length_sprite_movement : game.

(** ** The keys: what [sprite_movement] reads of the keyboard *)

Section MovementTheorems.
Context {F : Type} `{Scalar F} `{Std F}.

(** C2: when neither steering key is held, [sprite_movement] leaves the
    facing direction of every car unchanged and shows the centre
    sprite. *)
Theorem sprite_movement_no_steer (kb : ButtonInput) (cars : list (CarQuery F)) :
  pressed kb KeyA = false -> pressed kb KeyD = false ->
  Forall2 (fun q q' => Car.direction (fst (fst q')) = Car.direction (fst (fst q)) /\
                       snd q' = load "racecar_center.png")
          cars (sprite_movement kb cars).
Proof.
  intros HA HD. induction cars as [|[[car tf] tex] cars IH]; constructor; [|exact IH].
  rewrite sprite_movement_car_eq. unfold steer. rewrite HA, HD.
  split; [apply integrate_unchanged_fields | reflexivity].
Qed.

(** C3: [sprite_movement] reads only the keys [A] and [D], and [A] wins:
    two keyboards that agree on [A], and on [D] when [A] is up, move
    every car the same way. *)
Theorem sprite_movement_input_surface (kb1 kb2 : ButtonInput) (cars : list (CarQuery F)) :
  pressed kb1 KeyA = pressed kb2 KeyA ->
  (pressed kb1 KeyA = false -> pressed kb1 KeyD = pressed kb2 KeyD) ->
  sprite_movement kb1 cars = sprite_movement kb2 cars.
Proof.
  intros HA HD. apply map_ext. intros [[car tf] tex].
  rewrite !sprite_movement_car_eq. unfold steer. rewrite <- HA.
  destruct (pressed kb1 KeyA); [reflexivity|]. rewrite <- HD by reflexivity. reflexivity.
Qed.
End MovementTheorems.

(** ** Witnesses on the spawned car *)

#[local] Existing Instance Std_f32_example.

Definition no_keys : ButtonInput := {| pressed := fun _ => false |}.
Definition keys_A_and_D : ButtonInput :=
  {| pressed := fun k => match k with KeyA | KeyD => true | OtherKey _ => false end |}.
Definition keys_A : ButtonInput :=
  {| pressed := fun k => match k with KeyA => true | _ => false end |}.

Lemma sprite_movement_no_steer_witness :
  pressed no_keys KeyA = false /\ pressed no_keys KeyD = false /\
  Forall2 (fun q q' => Car.direction (fst (fst q')) = Car.direction (fst (fst q)) /\
                       snd q' = load "racecar_center.png")
          [initial_car_entity (F := f32)] (sprite_movement no_keys [initial_car_entity]).
Proof.
  split; [reflexivity | split; [reflexivity |]].
  apply sprite_movement_no_steer; reflexivity.
Defined.

Lemma sprite_movement_input_surface_witness :
  pressed keys_A_and_D KeyA = pressed keys_A KeyA /\
  (pressed keys_A_and_D KeyA = false -> pressed keys_A_and_D KeyD = pressed keys_A KeyD) /\
  sprite_movement keys_A_and_D [initial_car_entity (F := f32)] =
  sprite_movement keys_A [initial_car_entity].
Proof.
  split; [reflexivity | split; [discriminate |]].
  apply sprite_movement_input_surface; [reflexivity | discriminate].
Defined.
