(* ===== verification/Obstacles.v ===== *)
(** * Obstacles: layout, camera follow and collision

    [struct Obstacle] (main.rs lines 22-25) is [Obstacle.t].  The layout
    table [lv1_turns] (lines 36-38) and the startup loop [setup_obstacles]
    (lines 40-87) are [lv1_turns] and [setup_obstacles], the inner loop
    [for _n in 0..num] being [spawn_row].  The systems
    [obstacle_update_system] (lines 189-195) and [collision_update_system]
    (lines 197-205) take the components of their queries in the ECS's
    iteration order and return [outcome]: the first panics on [unwrap] when
    no car exists, the second on [single_mut] unless exactly one does.

    The collision loop is proved equal to its declarative reading (the car
    is reset iff some obstacle is within 100 of its position before the
    loop), idempotent, and independent of the iteration order. *)

From Stdlib Require Import ZArith String List Permutation Morphisms Lia.
From S2P Require Import Prelude Vec Binary32 Car.
Import ListNotations.

Local Open Scope scalar_scope.

Module Obstacle.
Section Obstacle.
Context {F : Type}.
Record t := mk { pos : Vec2.t F }.
End Obstacle.
Arguments t : clear implicits.
End Obstacle.

(** The components of an obstacle entity: [Obstacle], [Transform] and the
    sprite's [Handle<Image>]. *)
Definition ObstacleQuery (F : Type) : Type := (Obstacle.t F * Transform.t F * Handle)%type.

Section Layout.
Context {F : Type} `{Scalar F}.

(** Lines 36-38 *)
Definition lv1_turns : list (nat * F) := [(10%nat, #0); (20%nat, #50); (30%nat, #100)].

(** [let left_side = -400.0;] *)
Definition left_side : F := # (-400).

Definition cone (xpos ypos : F) (transform : Transform.t F) : ObstacleQuery F :=
  (Obstacle.mk (Vec2.new xpos ypos), transform, load "cone.png").

(** Lines 62-85: [num] mirrored pairs at [xpos + left_side] and
    [xpos - left_side], [ypos] advancing by 100 after each pair; returns
    the spawned entities in spawn order and the final [ypos]. *)
Fixpoint spawn_row (xpos : F) (transform : Transform.t F) (num : nat) (ypos : F)
  : list (ObstacleQuery F) * F :=
  match num with
  | O => ([], ypos)
  | S n =>
      let '(rest, ypos') := spawn_row xpos transform n (ypos + #100) in
      (cone (xpos + left_side) ypos transform
         :: cone (xpos - left_side) ypos transform :: rest, ypos')
  end.

(** Lines 59-86: the outer loop over the table, threading [ypos]. *)
Fixpoint spawn_turns (turns : list (nat * F)) (ypos : F) : list (ObstacleQuery F) :=
  match turns with
  | [] => []
  | (num, xpos) :: turns =>
      let transform :=
        Transform.with_scale (Transform.from_xyz xpos #20 (# (-1)))
          (Vec3.splat (#1 / #10)) in
      let '(row, ypos') := spawn_row xpos transform num ypos in
      row ++ spawn_turns turns ypos'
  end.

(** Lines 40-87 ([let mut ypos = -100.0;]).  The transform built on
    lines 41-42 is used only by the commented-out code of lines 44-54. *)
Definition setup_obstacles (turns : list (nat * F)) : list (ObstacleQuery F) :=
  spawn_turns turns (# (-100)).
End Layout.

Section Systems.
Context {F : Type} `{Scalar F}.

(** Lines 189-195: every obstacle is drawn at its world [x] and at its
    world [y] minus the [y] of the first car of the query; [unwrap]
    panics when there is no car. *)
Definition obstacle_update_system (obstacles : list (ObstacleQuery F)) (cars : list (Car.t F))
  : outcome (list (ObstacleQuery F)) :=
  match cars with
  | [] => Panic UnwrapNone
  | car :: _ =>
      Ok (map (fun '(obstacle, transform, texture) =>
                 let transform := Transform.set_x transform (Vec2.x (Obstacle.pos obstacle)) in
                 let transform :=
                   Transform.set_y transform
                     (Vec2.y (Obstacle.pos obstacle) - Vec2.y (Car.pos car)) in
                 (obstacle, transform, texture))
              obstacles)
  end.

(** Lines 201-202: [vel = (0, 0)], [pos = (100, 0)]. *)
Definition reset (car : Car.t F) : Car.t F :=
  Car.with_pos (Car.with_vel car (Vec2.new #0 #0)) (Vec2.new #100 #0).

(** Line 200: [car.pos.distance(obstacle.pos) < 100.] *)
Definition hits (car : Car.t F) (obstacle : Obstacle.t F) : bool :=
  Vec2.distance (Car.pos car) (Obstacle.pos obstacle) <? #100.

(** Lines 199-204: the body of the loop. *)
Definition collision_check (car : Car.t F) (obstacle : Obstacle.t F) : Car.t F :=
  if hits car obstacle then reset car else car.

(** Lines 197-205: [single_mut] panics unless the query has exactly one
    car; the loop visits the obstacles in iteration order. *)
Definition collision_update_system (obstacles : list (Obstacle.t F)) (cars : list (Car.t F))
  : outcome (list (Car.t F)) :=
  match cars with
  | [car] => Ok [fold_left collision_check obstacles car]
  | [] => Panic QuerySingleNoEntities
  | _ :: _ :: _ => Panic QuerySingleMultipleEntities
  end.

(** The declarative reading of the loop: reset iff some obstacle is
    within range of the position the car had when the system started. *)
Definition collision_spec (obstacles : list (Obstacle.t F)) (car : Car.t F) : Car.t F :=
  if existsb (hits car) obstacles then reset car else car.
End Systems.

(** ** The collision loop *)

Section CollisionFacts.
Context {F : Type} `{Scalar F}.

Lemma reset_reset (car : Car.t F) : reset (reset car) = reset car.
Proof. reflexivity. Qed.

Lemma collision_check_reset (car : Car.t F) (o : Obstacle.t F) :
  collision_check (reset car) o = reset car.
Proof. unfold collision_check. destruct (hits _ _); reflexivity. Qed.

(** Once the car is reset, the rest of the loop keeps it there. *)
Lemma fold_collision_reset (car : Car.t F) (obstacles : list (Obstacle.t F)) :
  fold_left collision_check obstacles (reset car) = reset car.
Proof. apply fold_left_absorb, collision_check_reset. Qed.

Lemma fold_collision_spec (obstacles : list (Obstacle.t F)) (car : Car.t F) :
  fold_left collision_check obstacles car = collision_spec obstacles car.
Proof.
  unfold collision_spec. induction obstacles as [|o obstacles IH]; [reflexivity|].
  cbn [fold_left existsb]. unfold collision_check at 2.
  destruct (hits car o); [apply fold_collision_reset | exact IH].
Qed.

Lemma collision_spec_idem (obstacles : list (Obstacle.t F)) (car : Car.t F) :
  collision_spec obstacles (collision_spec obstacles car) = collision_spec obstacles car.
Proof.
  destruct (existsb (hits car) obstacles) eqn:E.
  - assert (Hc : collision_spec obstacles car = reset car)
      by (unfold collision_spec; rewrite E; reflexivity).
    rewrite Hc, <- fold_collision_spec. apply fold_collision_reset.
  - assert (Hc : collision_spec obstacles car = car)
      by (unfold collision_spec; rewrite E; reflexivity).
    rewrite Hc. exact Hc.
Qed.

Lemma collision_update_system_single (obstacles : list (Obstacle.t F)) (car : Car.t F) :
  collision_update_system obstacles [car] = Ok [collision_spec obstacles car].
Proof. cbn. rewrite fold_collision_spec. reflexivity. Qed.

#[export] Instance collision_update_system_Proper :
  Proper (@Permutation (Obstacle.t F) ==> eq ==> eq) collision_update_system.
Proof.
  intros o1 o2 Ho cars ? <-. destruct cars as [|car [|]]; try reflexivity.
  rewrite !collision_update_system_single. unfold collision_spec.
  rewrite (existsb_perm _ _ _ Ho). reflexivity.
Qed.

(** C1: [collision_update_system] panics when the query has no car or
    several cars; with exactly one car it resets it (velocity [(0,0)],
    position [(100,0)]) iff some obstacle is closer than 100 to the
    position the car had when the system started, and otherwise leaves
    it unchanged. *)
Theorem collision_update_system_correct (obstacles : list (Obstacle.t F))
    (cars : list (Car.t F)) :
  collision_update_system obstacles cars =
  match cars with
  | [] => Panic QuerySingleNoEntities
  | [car] =>
      Ok [if existsb (fun o => Vec2.distance (Car.pos car) (Obstacle.pos o) <? #100) obstacles
          then Car.mk (Vec2.new #100 #0) (Vec2.new #0 #0) (Car.direction car)
                      (Car.base_acc car) (Car.top_speed car)
          else car]
  | _ :: _ :: _ => Panic QuerySingleMultipleEntities
  end.
Proof.
  destruct cars as [|car [|]]; try reflexivity.
  apply collision_update_system_single.
Qed.

(** C5: running the collision check twice in a frame is the same as
    running it once: a reset car is either out of range of every
    obstacle or reset again to the same state. *)
Theorem collision_update_system_idempotent (obstacles : list (Obstacle.t F))
    (cars cars' : list (Car.t F)) :
  collision_update_system obstacles cars = Ok cars' ->
  collision_update_system obstacles cars' = Ok cars'.
Proof.
  destruct cars as [|car [|]]; try discriminate.
  rewrite collision_update_system_single. intros Hc. outcome_inv.
  rewrite collision_update_system_single, collision_spec_idem. reflexivity.
Qed.

(** C6: the outcome of [collision_update_system] does not depend on the
    order in which the query yields the obstacles. *)
Theorem collision_update_system_order_independent (o1 o2 : list (Obstacle.t F))
    (cars : list (Car.t F)) :
  Permutation o1 o2 ->
  collision_update_system o1 cars = collision_update_system o2 cars.
Proof. intros Hp. now rewrite Hp. Qed.
End CollisionFacts.

(** ** Camera follow *)

Section ObstacleUpdateFacts.
Context {F : Type} `{Scalar F}.

(** C7: [obstacle_update_system] panics when there is no car; otherwise
    it leaves every obstacle's [Obstacle] component, texture, rotation
    and scale as they were and moves its sprite to the obstacle's world
    [x] and to its world [y] minus the first car's [y]. *)
Theorem obstacle_update_system_correct (obstacles : list (ObstacleQuery F))
    (cars : list (Car.t F)) :
  match cars with
  | [] => obstacle_update_system obstacles cars = Panic UnwrapNone
  | car :: _ =>
      exists obstacles',
        obstacle_update_system obstacles cars = Ok obstacles' /\
        Forall2 (fun '(o, tf, tex) '(o', tf', tex') =>
                   o' = o /\ tex' = tex /\
                   Transform.translation tf' =
                     Vec3.new (Vec2.x (Obstacle.pos o))
                              (Vec2.y (Obstacle.pos o) - Vec2.y (Car.pos car))
                              (Vec3.z (Transform.translation tf)) /\
                   Transform.rotation tf' = Transform.rotation tf /\
                   Transform.scale tf' = Transform.scale tf)
                obstacles obstacles'
  end.
Proof.
  destruct cars as [|car cars]; [reflexivity|].
  eexists; split; [reflexivity|].
  induction obstacles as [|[[o tf] tex] obstacles IH]; constructor; [|exact IH].
  repeat split.
Qed.

(** The [Obstacle] components after the system are those before it. *)
Lemma obstacle_update_system_components (obstacles obstacles' : list (ObstacleQuery F))
    (cars : list (Car.t F)) :
  obstacle_update_system obstacles cars = Ok obstacles' ->
  map (fun q => fst (fst q)) obstacles' = map (fun q => fst (fst q)) obstacles.
Proof.
  destruct cars as [|car cars]; intros Hu; cbn [obstacle_update_system] in Hu; outcome_inv.
  rewrite map_map. apply map_ext. intros [[o tf] tex]. reflexivity.
Qed.

Lemma obstacle_update_system_length (obstacles obstacles' : list (ObstacleQuery F))
    (cars : list (Car.t F)) :
  obstacle_update_system obstacles cars = Ok obstacles' ->
  length obstacles' = length obstacles.
Proof.
  intros Hu. pose proof (f_equal (@length _)
    (obstacle_update_system_components obstacles obstacles' cars Hu)) as Hl.
  rewrite !length_map in Hl. exact Hl.
Qed.
End ObstacleUpdateFacts.

(** ** The layout loop *)

Section LayoutFacts.
Context {F : Type} `{Scalar F}.

Lemma spawn_row_length (xpos : F) (tf : Transform.t F) (num : nat) (ypos : F) :
  length (fst (spawn_row xpos tf num ypos)) = (2 * num)%nat.
Proof.
  revert ypos. induction num as [|num IH]; intros ypos; [reflexivity|].
  cbn [spawn_row]. specialize (IH (ypos + #100)).
  destruct (spawn_row xpos tf num (ypos + #100)) as [rest y']. cbn in *. lia.
Qed.

Lemma spawn_turns_length (turns : list (nat * F)) (ypos : F) :
  length (spawn_turns turns ypos) = (2 * list_sum (map fst turns))%nat.
Proof.
  revert ypos. induction turns as [|[num xpos] turns IH]; intros ypos; [reflexivity|].
  cbn [spawn_turns map fst list_sum fold_right].
  match goal with |- context [spawn_row xpos ?tf num ypos] =>
    pose proof (spawn_row_length xpos tf num ypos) as Hr;
    destruct (spawn_row xpos tf num ypos) as [row y'] end.
  rewrite length_app, IH. unfold list_sum in *. cbn in *. lia.
Qed.

(** Every obstacle of a row is at [xpos + left_side] or [xpos - left_side]. *)
Lemma spawn_row_x (xpos : F) (tf : Transform.t F) (num : nat) (ypos : F) :
  Forall (fun q => Vec2.x (Obstacle.pos (fst (fst q))) = xpos + left_side \/
                   Vec2.x (Obstacle.pos (fst (fst q))) = xpos - left_side)
         (fst (spawn_row xpos tf num ypos)).
Proof.
  revert ypos. induction num as [|num IH]; intros ypos; [constructor|].
  cbn [spawn_row]. specialize (IH (ypos + #100)).
  destruct (spawn_row xpos tf num (ypos + #100)) as [rest y']. cbn [fst] in *.
  constructor; [left; reflexivity|]. constructor; [right; reflexivity|]. exact IH.
Qed.

(** Every obstacle [setup_obstacles] spawns is at the [x] of a row of the
    table, plus or minus [left_side]. *)
Lemma spawn_turns_x (turns : list (nat * F)) (ypos : F) :
  Forall (fun q => exists num xpos, In (num, xpos) turns /\
                     (Vec2.x (Obstacle.pos (fst (fst q))) = xpos + left_side \/
                      Vec2.x (Obstacle.pos (fst (fst q))) = xpos - left_side))
         (spawn_turns turns ypos).
Proof.
  revert ypos. induction turns as [|[num xpos] turns IH]; intros ypos; [constructor|].
  cbn [spawn_turns].
  match goal with |- context [spawn_row xpos ?tf num ypos] =>
    pose proof (spawn_row_x xpos tf num ypos) as Hr;
    destruct (spawn_row xpos tf num ypos) as [row y'] end.
  cbn [fst] in Hr. apply Forall_app. split.
  - eapply Forall_impl; [|exact Hr]. intros q Hq. exists num, xpos. split; [left|]; auto.
  - eapply Forall_impl; [|apply IH]. intros q (n' & x' & Hin & Hx). exists n', x'.
    split; [right|]; auto.
Qed.

(** C8: [setup_obstacles] spawns two obstacles per row of the table:
    twice the sum of the counts, 120 for [lv1_turns]. *)
Theorem setup_obstacles_count (turns : list (nat * F)) :
  length (setup_obstacles turns) = (2 * list_sum (map fst turns))%nat /\
  length (setup_obstacles (lv1_turns (F := F))) = 120%nat.
Proof. split; apply spawn_turns_length. Qed.
End LayoutFacts.

(** ** Witnesses *)

Definition car_near_cone : Car.t f32 :=
  Car.mk (Vec2.new #120 #30) (Vec2.new #0 #5) (Vec2.new #0 #1) #1 #40.
Definition one_cone : list (Obstacle.t f32) := [Obstacle.mk (Vec2.new #150 #0)].
Definition three_cones : list (Obstacle.t f32) :=
  [Obstacle.mk (Vec2.new #400 #0); Obstacle.mk (Vec2.new #150 #0);
   Obstacle.mk (Vec2.new (# (-400)) #100)].

Lemma collision_update_system_idempotent_witness :
  collision_update_system one_cone [car_near_cone] = Ok [initial_car] /\
  collision_update_system one_cone [initial_car] = Ok [initial_car].
Proof.
  split; [vm_compute; reflexivity|].
  apply (collision_update_system_idempotent one_cone [car_near_cone]).
  vm_compute. reflexivity.
Defined.

Lemma collision_update_system_order_independent_witness :
  Permutation three_cones (rev three_cones) /\
  collision_update_system three_cones [car_near_cone] =
  collision_update_system (rev three_cones) [car_near_cone].
Proof.
  split; [apply Permutation_rev|].
  apply collision_update_system_order_independent, Permutation_rev.
Defined.
