(* ===== verification/World.v ===== *)
(** * The world and the frame: [setup], [text_update_system], [main]

    The ECS world holds the entities [setup] (main.rs lines 89-128) spawns:
    the camera, the car ([CarQuery]: [Car], [Transform], texture), the
    obstacles ([ObstacleQuery]) and the timer text (its sections' values),
    each archetype in spawn order, which is the order Bevy's queries yield
    them.  [text_update_system] (lines 183-187) writes the first section of
    every timer text and panics on an empty one.  [run_system] runs one of
    the four [Update] systems of [main] (lines 5-14) on the world, reading
    and writing the components its query names.

    Bevy does not order the four systems (they are a tuple with no
    [.chain()] or [.before()]), and it runs systems with conflicting
    accesses one after another: a frame is therefore any serial order of
    the four ([frame]).  [reachable] is the least set of worlds containing
    [setup_world] and closed under frames, and the theorems of this file
    are proved on it by rule induction: exactly one car exists, the
    obstacles never move in the world, and no system ever panics.
    [reachable_under] and [reachable_after] restrict the frames' inputs
    (for instance to [no_steering]), the latter counting the frames.

    The order of a frame matters only through the car: [car_step] and
    [run_car_steps] give a system's effect on the car entities, the car
    after a frame depends only on the relative order of its two writers
    ([frame_car_orders]), and the cones are placed against the car as the
    writers that ran before [obstacle_update_system] left it
    ([frame_obstacles_orders]). *)

From Stdlib Require Import ZArith String Ascii List Permutation Lia.
From S2P Require Import Prelude Vec Binary32 Car Obstacles.
Import ListNotations.

Local Open Scope scalar_scope.

(** The systems of the [Update] schedule (line 11). *)
Inductive System : Type := SpriteMovement | TextUpdate | ObstacleUpdate | CollisionUpdate.

Definition all_systems : list System :=
  [SpriteMovement; TextUpdate; ObstacleUpdate; CollisionUpdate].

Definition System_eq_dec (a b : System) : {a = b} + {a <> b}.
Proof. decide equality. Defined.

(** The systems that run before [s] in a frame's [order], and after it. *)
Fixpoint systems_before (s : System) (order : list System) : list System :=
  match order with
  | [] => []
  | s' :: order => if System_eq_dec s' s then [] else s' :: systems_before s order
  end.

Fixpoint systems_after (s : System) (order : list System) : list System :=
  match order with
  | [] => []
  | s' :: order => if System_eq_dec s' s then order else systems_after s order
  end.

Section World.
Context {F : Type}.

Record world : Type := mk_world {
  cameras : nat;
  cars : list (CarQuery F);
  obstacles : list (ObstacleQuery F);
  texts : list (list string)
}.

Definition with_cars (w : world) (cs : list (CarQuery F)) : world :=
  mk_world (cameras w) cs (obstacles w) (texts w).
Definition with_obstacles (w : world) (os : list (ObstacleQuery F)) : world :=
  mk_world (cameras w) (cars w) os (texts w).
Definition with_texts (w : world) (ts : list (list string)) : world :=
  mk_world (cameras w) (cars w) (obstacles w) ts.

(** The [Car] components of the car entities, the [Obstacle] components of
    the obstacle entities: what [Query<&Car>] and [Query<&Obstacle>] yield. *)
Definition car_components (cs : list (CarQuery F)) : list (Car.t F) :=
  map (fun q => fst (fst q)) cs.
Definition obstacle_components (os : list (ObstacleQuery F)) : list (Obstacle.t F) :=
  map (fun q => fst (fst q)) os.

(** [Query<&mut Car>] writes the [Car] components back, entity by entity. *)
Fixpoint write_cars (cs : list (Car.t F)) (entities : list (CarQuery F)) : list (CarQuery F) :=
  match cs, entities with
  | c :: cs, (_, tf, tex) :: entities => (c, tf, tex) :: write_cars cs entities
  | _, _ => entities
  end.

Context `{Scalar F}.

(** ["hello\nbevy!"], the first text of the label (line 112). *)
Definition hello_bevy : string :=
  ("hello" ++ String (ascii_of_nat 10) "bevy!")%string.

(** Lines 89-128: a camera, the car, the obstacles of [lv1_turns], the
    timer text with one section. *)
Definition setup_world : world :=
  mk_world 1 [initial_car_entity] (setup_obstacles lv1_turns) [[hello_bevy]].

Context `{Display F}.

(** Line 185: [text.sections[0].value = format!("Time: {}", ...)]; the
    index panics on a text without sections. *)
Definition timer_text_update (elapsed_seconds : F) (sections : list string)
  : outcome (list string) :=
  match sections with
  | [] => Panic (IndexOutOfBounds 0 0)
  | _ :: rest => Ok (("Time: " ++ display (ffloor elapsed_seconds))%string :: rest)
  end.

(** Lines 183-187 *)
Definition text_update_system (elapsed_seconds : F) (ts : list (list string))
  : outcome (list (list string)) :=
  omapM (timer_text_update elapsed_seconds) ts.

Context `{Std F}.

(** What a frame reads of the engine's resources: the keyboard and
    [time.elapsed_seconds()]. *)
Record FrameInput : Type := { keyboard : ButtonInput; elapsed_seconds : F }.

(** One system on the world, with the queries of its signature. *)
Definition run_system (inp : FrameInput) (s : System) (w : world) : outcome world :=
  match s with
  | SpriteMovement => Ok (with_cars w (sprite_movement (keyboard inp) (cars w)))
  | TextUpdate => omap (with_texts w) (text_update_system (elapsed_seconds inp) (texts w))
  | ObstacleUpdate =>
      omap (with_obstacles w) (obstacle_update_system (obstacles w) (car_components (cars w)))
  | CollisionUpdate =>
      omap (fun cs => with_cars w (write_cars cs (cars w)))
        (collision_update_system (obstacle_components (obstacles w)) (car_components (cars w)))
  end.

(** The systems of a frame one after the other; a panic ends the frame. *)
Fixpoint run_systems (inp : FrameInput) (order : list System) (w : world) : outcome world :=
  match order with
  | [] => Ok w
  | s :: order => obind (run_system inp s w) (run_systems inp order)
  end.

(** Lines 5-14: a frame runs the four systems in some order. *)
Inductive frame (inp : FrameInput) : world -> world -> Prop :=
  | frame_intro (order : list System) (w w' : world) :
      Permutation order all_systems ->
      run_systems inp order w = Ok w' ->
      frame inp w w'.

(** The worlds the program reaches: [setup], then frames. *)
Inductive reachable : world -> Prop :=
  | reachable_setup : reachable setup_world
  | reachable_frame (inp : FrameInput) (w w' : world) :
      reachable w -> frame inp w w' -> reachable w'.

(** The worlds reached when every frame's input satisfies [allowed]. *)
Inductive reachable_under (allowed : FrameInput -> Prop) : world -> Prop :=
  | reachable_under_setup : reachable_under allowed setup_world
  | reachable_under_frame (inp : FrameInput) (w w' : world) :
      allowed inp -> reachable_under allowed w -> frame inp w w' -> reachable_under allowed w'.

Lemma reachable_under_reachable (allowed : FrameInput -> Prop) (w : world) :
  reachable_under allowed w -> reachable w.
Proof. induction 1; econstructor; eassumption. Qed.

(** The worlds reached after exactly [n] frames whose inputs satisfy
    [allowed]. *)
Inductive reachable_after (allowed : FrameInput -> Prop) : nat -> world -> Prop :=
  | reachable_after_setup : reachable_after allowed 0 setup_world
  | reachable_after_frame (n : nat) (inp : FrameInput) (w w' : world) :
      allowed inp -> reachable_after allowed n w -> frame inp w w' ->
      reachable_after allowed (S n) w'.

Lemma reachable_after_under (allowed : FrameInput -> Prop) (n : nat) (w : world) :
  reachable_after allowed n w -> reachable_under allowed w.
Proof. induction 1; econstructor; eassumption. Qed.

(** Neither steering key is held during the frame. *)
Definition no_steering (inp : FrameInput) : Prop :=
  pressed (keyboard inp) KeyA = false /\ pressed (keyboard inp) KeyD = false.
End World.

Arguments world : clear implicits.
Arguments FrameInput : clear implicits.

(** ** The HUD *)

Section TextFacts.
Context {F : Type} `{Scalar F} `{Display F}.

(** C18: [text_update_system] panics (index 0 out of range) when some
    timer text has no section; otherwise it replaces the first section of
    every timer text with ["Time: "] followed by the floor of the elapsed
    seconds, and keeps the other sections. *)
Theorem text_update_system_correct (elapsed : F) (ts : list (list string)) :
  text_update_system elapsed ts =
  if forallb (fun sections => match sections with [] => false | _ => true end) ts
  then Ok (map (fun sections => ("Time: " ++ display (ffloor elapsed))%string :: tl sections) ts)
  else Panic (IndexOutOfBounds 0 0).
Proof.
  unfold text_update_system. induction ts as [|[|s0 ss] ts IH]; [reflexivity | reflexivity|].
  cbn [omapM timer_text_update obind forallb andb]. rewrite IH.
  destruct (forallb _ ts); reflexivity.
Qed.
End TextFacts.

(** ** The invariant of reachable worlds *)

Section Invariant.
Context {F : Type} `{Scalar F} `{Display F} `{Std F}.

(** Exactly one car, whose constants are those [setup] gave it; every
    timer text has a first section; the obstacles are where [setup] put
    them. *)
Definition world_inv (w : world F) : Prop :=
  length (cars w) = 1%nat /\
  Forall (fun q => Car.base_acc (fst (fst q)) = #1 /\ Car.top_speed (fst (fst q)) = #40)
         (cars w) /\
  Forall (fun sections => sections <> []) (texts w) /\
  obstacle_components (obstacles w) = obstacle_components (setup_obstacles lv1_turns).

Lemma world_inv_setup : world_inv setup_world.
Proof.
  repeat split; repeat constructor. discriminate.
Qed.

Lemma sprite_movement_constants (kb : ButtonInput) (cs : list (CarQuery F)) (a t : F) :
  Forall (fun q => Car.base_acc (fst (fst q)) = a /\ Car.top_speed (fst (fst q)) = t) cs ->
  Forall (fun q => Car.base_acc (fst (fst q)) = a /\ Car.top_speed (fst (fst q)) = t)
         (sprite_movement kb cs).
Proof.
  intros Hcs. apply Forall_map. eapply Forall_impl; [|exact Hcs].
  intros [[car tf] tex] [Ha Ht]. rewrite sprite_movement_car_eq. cbn [fst] in *.
  destruct (steer_unchanged_fields kb car) as (_ & _ & Ha' & Ht').
  destruct (integrate_unchanged_fields (fst (steer kb car))) as (_ & Ha'' & Ht'').
  rewrite Ha'', Ht'', Ha', Ht'. auto.
Qed.

Lemma collision_spec_constants (os : list (Obstacle.t F)) (car : Car.t F) :
  Car.base_acc (collision_spec os car) = Car.base_acc car /\
  Car.top_speed (collision_spec os car) = Car.top_speed car.
Proof. unfold collision_spec. destruct (existsb _ _); split; reflexivity. Qed.

Lemma timer_text_update_nonempty (e : F) (sections sections' : list string) :
  timer_text_update e sections = Ok sections' -> sections' <> [].
Proof. destruct sections; cbn; intros Hu; outcome_inv; discriminate. Qed.

Lemma run_system_inv (inp : FrameInput F) (s : System) (w : world F) :
  world_inv w -> exists w', run_system inp s w = Ok w' /\ world_inv w'.
Proof.
  intros (Hlen & Hconst & Htexts & Hobs).
  destruct s; cbn [run_system omap]; unfold world_inv.
  - eexists; split; [reflexivity|]. cbn [with_cars cars texts obstacles].
    rewrite length_sprite_movement. auto using sprite_movement_constants.
  - destruct (omapM_total (timer_text_update (elapsed_seconds inp)) (texts w)) as [ts Hts].
    { intros ss Hin. apply (proj1 (Forall_forall _ _) Htexts) in Hin.
      destruct ss as [|s0 ss]; [contradiction|]. eexists; reflexivity. }
    unfold text_update_system. rewrite Hts. eexists; split; [reflexivity|].
    cbn [with_texts cars texts obstacles]. refine (conj Hlen (conj Hconst (conj _ Hobs))).
    apply omapM_Ok in Hts. clear - Hts. induction Hts; constructor; [|assumption].
    eapply timer_text_update_nonempty; eassumption.
  - unfold car_components. destruct (cars w) as [|q cs] eqn:Ew; [discriminate|].
    cbn [map obstacle_update_system obind].
    eexists; split; [reflexivity|]. cbn [with_obstacles cars texts obstacles]. rewrite Ew.
    refine (conj Hlen (conj Hconst (conj Htexts _))).
    rewrite <- Hobs. unfold obstacle_components. rewrite map_map. apply map_ext.
    intros [[o tf] tex]. reflexivity.
  - unfold car_components.
    destruct (cars w) as [|[[car tf] tex] [|]] eqn:Ew; try discriminate.
    cbn [map fst]. rewrite collision_update_system_single.
    eexists; split; [reflexivity|]. cbn [with_cars cars texts obstacles write_cars].
    destruct (collision_spec_constants (obstacle_components (obstacles w)) car) as [Ha Ht].
    inversion Hconst as [|? ? [Ha0 Ht0] _]; subst.
    refine (conj eq_refl (conj _ (conj Htexts Hobs))).
    constructor; [cbn [fst]; rewrite Ha, Ht; auto | constructor].
Qed.

Lemma run_systems_inv (inp : FrameInput F) (order : list System) (w : world F) :
  world_inv w -> exists w', run_systems inp order w = Ok w' /\ world_inv w'.
Proof.
  revert w. induction order as [|s order IH]; intros w Hw; cbn; [eauto|].
  destruct (run_system_inv inp s w Hw) as (w1 & -> & Hw1). cbn. apply IH, Hw1.
Qed.

Lemma reachable_world_inv (w : world F) : reachable w -> world_inv w.
Proof.
  induction 1 as [|inp w w' _ IH Hf]; [apply world_inv_setup|].
  destruct Hf as [order w w' _ Hrun].
  destruct (run_systems_inv inp order w IH) as (w'' & Hrun' & Hw'').
  congruence.
Qed.
End Invariant.

(** ** Ordering: what the order of the systems changes *)

Section Ordering.
Context {F : Type} `{Scalar F} `{Display F} `{Std F}.

(** What the car-writing systems read: the car entities and the
    obstacles' world positions. *)
Definition car_view (w : world F) : list (CarQuery F) * list (Obstacle.t F) :=
  (cars w, obstacle_components (obstacles w)).

Definition writes_car (s : System) : bool :=
  match s with SpriteMovement | CollisionUpdate => true | _ => false end.

(** The effect of a system on the car entities, as a function of the
    car view; [TextUpdate] and [ObstacleUpdate] leave them as they are. *)
Definition car_step (inp : FrameInput F) (s : System)
    (v : list (CarQuery F) * list (Obstacle.t F)) : outcome (list (CarQuery F)) :=
  match s with
  | SpriteMovement => Ok (sprite_movement (keyboard inp) (fst v))
  | CollisionUpdate =>
      omap (fun cs => write_cars cs (fst v))
        (collision_update_system (snd v) (car_components (fst v)))
  | TextUpdate | ObstacleUpdate => Ok (fst v)
  end.

Fixpoint run_car_steps (inp : FrameInput F) (order : list System)
    (v : list (CarQuery F) * list (Obstacle.t F)) : outcome (list (CarQuery F) * list (Obstacle.t F)) :=
  match order with
  | [] => Ok v
  | s :: order => obind (car_step inp s v) (fun cs => run_car_steps inp order (cs, snd v))
  end.

Lemma run_system_car_view (inp : FrameInput F) (s : System) (w w' : world F) :
  run_system inp s w = Ok w' ->
  car_step inp s (car_view w) = Ok (cars w') /\
  obstacle_components (obstacles w') = obstacle_components (obstacles w).
Proof.
  destruct s; cbn [run_system car_step car_view fst snd]; intros Hr.
  - outcome_inv. split; reflexivity.
  - unfold omap in Hr. outcome_inv. split; reflexivity.
  - unfold omap in Hr. outcome_inv. split; [reflexivity|].
    eapply obstacle_update_system_components. eassumption.
  - unfold omap in *. outcome_inv. rewrite Ha. split; reflexivity.
Qed.

Lemma run_systems_car_view (inp : FrameInput F) (order : list System) (w w' : world F) :
  run_systems inp order w = Ok w' ->
  run_car_steps inp (filter writes_car order) (car_view w) = Ok (car_view w').
Proof.
  revert w. induction order as [|s order IH]; intros w Hr; cbn in Hr.
  - outcome_inv. reflexivity.
  - outcome_inv. rename a into w1.
    destruct (run_system_car_view inp s w w1 Ha) as [Hc Ho].
    specialize (IH w1 Hk). cbn [filter]. destruct (writes_car s) eqn:Hs.
    + cbn [run_car_steps]. rewrite Hc. cbn [obind].
      replace (cars w1, snd (car_view w)) with (car_view w1)
        by (unfold car_view; cbn [snd]; rewrite Ho; reflexivity).
      exact IH.
    + replace (car_view w) with (car_view w1); [exact IH|].
      destruct s; try discriminate; cbn in Hc; injection Hc as Hc';
        unfold car_view; rewrite Ho, Hc'; reflexivity.
Qed.

(** A frame runs the two car writers in one of their two orders. *)
Lemma frame_writers_two_orders (order : list System) :
  Permutation order all_systems ->
  filter writes_car order = [SpriteMovement; CollisionUpdate] \/
  filter writes_car order = [CollisionUpdate; SpriteMovement].
Proof.
  intros Hp.
  assert (Hf : Permutation [SpriteMovement; CollisionUpdate] (filter writes_car order)).
  { change [SpriteMovement; CollisionUpdate] with (filter writes_car all_systems).
    apply Permutation_filter_bool. symmetry. exact Hp. }
  apply Permutation_length_2_inv in Hf as [Hf | Hf]; auto.
Qed.

Lemma run_systems_app (inp : FrameInput F) (l1 l2 : list System) (w : world F) :
  run_systems inp (l1 ++ l2) w = obind (run_systems inp l1 w) (run_systems inp l2).
Proof.
  revert w. induction l1 as [|s l1 IH]; intros w; [reflexivity|].
  cbn [app run_systems]. destruct (run_system inp s w); [apply IH | reflexivity].
Qed.

(** Only [obstacle_update_system] writes the obstacle entities. *)
Lemma run_system_keeps_obstacles (inp : FrameInput F) (s : System) (w w1 : world F) :
  s <> ObstacleUpdate -> run_system inp s w = Ok w1 -> obstacles w1 = obstacles w.
Proof.
  intros Hs Hr. destruct s; cbn [run_system] in Hr; unfold omap in Hr;
    [| | congruence |]; outcome_inv; try reflexivity.
  all: destruct (text_update_system _ _) || destruct (collision_update_system _ _);
    outcome_inv; try discriminate; reflexivity.
Qed.

Lemma run_systems_keeps_obstacles (inp : FrameInput F) (order : list System) (w w1 : world F) :
  ~ In ObstacleUpdate order -> run_systems inp order w = Ok w1 -> obstacles w1 = obstacles w.
Proof.
  revert w. induction order as [|s order IH]; intros w Hin Hr; cbn in Hr; outcome_inv;
    [reflexivity|].
  rewrite (IH a) by (auto || (intros Hi; apply Hin; right; exact Hi)).
  apply (run_system_keeps_obstacles inp s); [intros ->; apply Hin; left |]; auto.
Qed.

Lemma systems_split (s : System) (order : list System) :
  In s order -> order = systems_before s order ++ s :: systems_after s order.
Proof.
  induction order as [|s' order IH]; intros Hin; [destruct Hin|]. cbn.
  destruct (System_eq_dec s' s) as [-> | Hne]; [reflexivity|].
  destruct Hin as [-> | Hin]; [contradiction|]. cbn. f_equal. apply IH, Hin.
Qed.

Lemma systems_before_notin (s : System) (order : list System) :
  ~ In s (systems_before s order).
Proof.
  induction order as [|s' order IH]; cbn; [auto|].
  destruct (System_eq_dec s' s); cbn; [auto | intros [-> | Hi]; auto].
Qed.
End Ordering.

(** ** Safety, invariants and ordering of the frame loop *)

Section WorldTheorems.
Context {F : Type} `{Scalar F} `{Display F} `{Std F}.

(** C9: from any world the program reaches, running any sequence of the
    four systems (in particular a frame, in whatever order Bevy picks)
    never panics: neither [unwrap] in [obstacle_update_system], nor
    [single_mut] in [collision_update_system], nor [sections[0]] in
    [text_update_system]. *)
Theorem reachable_never_panics (w : world F) (inp : FrameInput F) (order : list System) :
  reachable w -> exists w', run_systems inp order w = Ok w'.
Proof.
  intros Hr. destruct (run_systems_inv inp order w (reachable_world_inv w Hr)) as (w' & Hw' & _).
  eauto.
Qed.

(** C10: every reachable world has exactly one car, whose [base_acc] and
    [top_speed] are still 1 and 40, and every obstacle is still at the
    world position [setup] gave it. *)
Theorem reachable_single_car (w : world F) :
  reachable w ->
  length (cars w) = 1%nat /\
  Forall (fun q => Car.base_acc (fst (fst q)) = #1 /\ Car.top_speed (fst (fst q)) = #40)
         (cars w) /\
  obstacle_components (obstacles w) = obstacle_components (setup_obstacles lv1_turns).
Proof.
  intros Hr. destruct (reachable_world_inv w Hr) as (Hl & Hc & _ & Ho). auto.
Qed.

(** C11: the cars after a frame are those computed by the two systems
    that write them, [sprite_movement] and [collision_update_system], in
    one of their two relative orders; [text_update_system] and
    [obstacle_update_system] never change a car nor an obstacle's world
    position, so their place in the frame does not matter to the car. *)
Theorem frame_car_orders (inp : FrameInput F) (w w' : world F) :
  frame inp w w' ->
  run_car_steps inp [SpriteMovement; CollisionUpdate] (car_view w) = Ok (car_view w') \/
  run_car_steps inp [CollisionUpdate; SpriteMovement] (car_view w) = Ok (car_view w').
Proof.
  intros [order w0 w1 Hp Hr]. apply run_systems_car_view in Hr.
  destruct (frame_writers_two_orders order Hp) as [Hf | Hf]; rewrite Hf in Hr; auto.
Qed.

(** C19: in a frame, whatever order Bevy picks, the obstacles are drawn
    where [obstacle_update_system] puts them against the car as the car
    writers that ran before it in that frame ([sprite_movement],
    [collision_update_system], or neither) left it; the systems after it
    do not touch the obstacles.  Which car the camera follows in a frame
    is therefore decided by the order the code leaves open. *)
Theorem frame_obstacles_orders (inp : FrameInput F) (order : list System) (w w' : world F) :
  Permutation order all_systems -> run_systems inp order w = Ok w' ->
  exists v,
    run_car_steps inp (filter writes_car (systems_before ObstacleUpdate order)) (car_view w) = Ok v /\
    obstacle_update_system (obstacles w) (car_components (fst v)) = Ok (obstacles w').
Proof.
  intros Hp Hr.
  assert (Hin : In ObstacleUpdate order)
    by (apply (Permutation_in _ (Permutation_sym Hp)); cbn; auto).
  assert (Hnd : NoDup order)
    by (apply (Permutation_NoDup (Permutation_sym Hp)); repeat constructor; cbn; intuition discriminate).
  pose proof (systems_split ObstacleUpdate order Hin) as Hsplit.
  rewrite Hsplit in Hr, Hnd. apply NoDup_remove_2 in Hnd.
  rewrite run_systems_app in Hr. cbn [run_systems] in Hr. outcome_inv. rename a into w1, a0 into w2.
  exists (car_view w1). split; [apply run_systems_car_view; exact Ha|].
  rewrite <- (run_systems_keeps_obstacles inp _ w w1 (systems_before_notin _ _) Ha).
  rewrite (run_systems_keeps_obstacles inp _ w2 w' ltac:(intros Hi; apply Hnd, in_or_app; right; exact Hi) Hk0).
  cbn [run_system omap] in Ha0. unfold car_view. cbn [fst].
  destruct (obstacle_update_system _ _); unfold omap in Ha0; outcome_inv; reflexivity.
Qed.
End WorldTheorems.

(** ** Witnesses: the first frame after [setup], in binary32 *)

#[local] Existing Instance Std_f32_example.
#[local] Existing Instance Display_f32_example.

Definition example_input : FrameInput f32 := {| keyboard := no_keys; elapsed_seconds := #3 |}.

Definition first_frame_world : world f32 :=
  match run_systems example_input all_systems setup_world with
  | Ok w => w
  | Panic _ => setup_world
  end.

Lemma reachable_never_panics_witness :
  reachable (F := f32) setup_world /\
  exists w', run_systems example_input all_systems setup_world = Ok w'.
Proof. split; [constructor | apply reachable_never_panics; constructor]. Defined.

Lemma reachable_single_car_witness :
  reachable (F := f32) setup_world /\
  length (cars (F := f32) setup_world) = 1%nat /\
  Forall (fun q => Car.base_acc (fst (fst q)) = #1 /\ Car.top_speed (fst (fst q)) = #40)
         (cars (F := f32) setup_world) /\
  obstacle_components (obstacles (F := f32) setup_world) =
  obstacle_components (setup_obstacles lv1_turns).
Proof. split; [constructor | apply reachable_single_car; constructor]. Defined.

Lemma frame_car_orders_witness :
  frame example_input setup_world first_frame_world /\
  (run_car_steps example_input [SpriteMovement; CollisionUpdate] (car_view setup_world) =
     Ok (car_view first_frame_world) \/
   run_car_steps example_input [CollisionUpdate; SpriteMovement] (car_view setup_world) =
     Ok (car_view first_frame_world)).
Proof.
  assert (Hf : frame example_input setup_world first_frame_world).
  { apply (frame_intro _ all_systems); [reflexivity | vm_compute; reflexivity]. }
  split; [exact Hf | apply frame_car_orders; exact Hf].
Defined.

(** The frame that runs the camera follow first. *)
Definition camera_first : list System := [ObstacleUpdate; SpriteMovement; TextUpdate; CollisionUpdate].

Definition camera_first_world : world f32 :=
  match run_systems example_input camera_first setup_world with
  | Ok w => w
  | Panic _ => setup_world
  end.

Lemma frame_obstacles_orders_witness :
  Permutation camera_first all_systems /\
  run_systems example_input camera_first setup_world = Ok camera_first_world /\
  exists v,
    run_car_steps example_input (filter writes_car (systems_before ObstacleUpdate camera_first))
      (car_view setup_world) = Ok v /\
    obstacle_update_system (obstacles setup_world) (car_components (fst v)) =
      Ok (obstacles camera_first_world).
Proof.
  assert (Hp : Permutation camera_first all_systems)
    by (eapply perm_trans; [apply perm_swap | apply perm_skip, perm_swap]).
  assert (Hr : run_systems example_input camera_first setup_world = Ok camera_first_world)
    by (vm_compute; reflexivity).
  split; [exact Hp | split; [exact Hr | apply (frame_obstacles_orders _ _ _ _ Hp Hr)]].
Defined.
