(* ===== verification/Ideal.v ===== *)
(** * The program in exact real arithmetic

    The instance of [Scalar] and [Std] on the Standard Library's reals:
    [sqrt], [sin], [cos] are the exact functions, [<] is decided by
    [Rlt_dec].  This instance is not the program's arithmetic (that is
    [Binary32], run in [Run32]); it is used only for properties that do
    not depend on rounding, where it lets the proofs quantify over every
    position instead of enumerating floats: steering a car at rest does
    not turn it (the angle is exactly 0 in f32 as well, and the proof
    needs only [sin 0 = 0] and [cos 0 = 1] of the libm), and driving with
    no steering key never crashes, in every reachable world
    ([straight_driving_never_collides], by rule induction on
    [reachable_under]), where the car stays on [x = 100] with no
    sideways speed, which f32 computes exactly too ([Run32] shows the
    car's f32 states on that run). *)

From Stdlib Require Import ZArith String Reals Lra List.
From S2P Require Import Prelude Vec Car Obstacles World.
Import ListNotations.

Local Open Scope R_scope.

(** [f32::floor] on reals: [up r] is the least integer above [r]. *)
Definition Rfloor (r : R) : R := IZR (up r) - 1.

#[export] Instance Scalar_R : Scalar R := {
  of_Z := IZR;
  fadd := Rplus;
  fsub := Rminus;
  fmul := Rmult;
  fdiv := Rdiv;
  fneg := Ropp;
  fsqrt := sqrt;
  fltb := fun a b => if Rlt_dec a b then true else false;
  ffloor := Rfloor
}.

(** [atan2] on reals, by the quadrant of [(x, y)]. *)
Definition Ratan2 (y x : R) : R :=
  if Rlt_dec 0 x then atan (y / x)
  else if Rlt_dec x 0 then
    (if Rle_dec 0 y then atan (y / x) + PI else atan (y / x) - PI)
  else if Rlt_dec 0 y then PI / 2
  else if Rlt_dec y 0 then - (PI / 2)
  else 0.

#[export] Instance Std_R : Std R := {
  sin_cos := fun a => (sin a, cos a);
  atan2 := Ratan2;
  FRAC_PI_2 := PI / 2
}.

(** ** Vector lemmas in exact arithmetic *)

Definition norm2 (v : Vec2.t R) : R := Vec2.x v * Vec2.x v + Vec2.y v * Vec2.y v.

Lemma length_norm2 (v : Vec2.t R) : Vec2.length v = sqrt (norm2 v).
Proof. reflexivity. Qed.

Lemma fltb_R_false (a b : R) : fltb a b = false <-> b <= a.
Proof. cbn. destruct (Rlt_dec a b); split; intros; (lra || congruence). Qed.

(** ** Steering at rest *)

Lemma from_angle_0 : Vec2.from_angle 0 = Vec2.new 1 0.
Proof. unfold Vec2.from_angle. cbn [sin_cos Std_R]. rewrite sin_0, cos_0. reflexivity. Qed.

Lemma rotate_by_unit_x (d : Vec2.t R) : Vec2.rotate d (Vec2.new 1 0) = d.
Proof.
  destruct d as [dx dy]. unfold Vec2.rotate. cbn [fadd fsub fmul Scalar_R Vec2.x Vec2.y].
  f_equal; ring.
Qed.

(** C16: in exact arithmetic, steering a car at rest does not turn it:
    the angle [0.001 * |vel|] is 0 and the rotation by [(cos 0, sin 0)]
    is the identity, whichever key is held. *)
Theorem steer_at_rest (kb : ButtonInput) (car : Car.t R) :
  Vec2.length (Car.vel car) = 0 ->
  Car.direction (fst (steer kb car)) = Car.direction car.
Proof.
  intros H0. unfold steer. rewrite H0.
  destruct (pressed kb KeyA), (pressed kb KeyD); cbn [fst Car.with_direction Car.direction];
    try reflexivity;
    cbn [fmul fneg Scalar_R]; rewrite Rmult_0_r, from_angle_0; apply rotate_by_unit_x.
Qed.

Lemma steer_at_rest_witness :
  Vec2.length (Car.vel (initial_car (F := R))) = 0 /\
  Car.direction (fst (steer keys_A initial_car)) = Car.direction (initial_car (F := R)).
Proof.
  assert (H0 : Vec2.length (Car.vel (initial_car (F := R))) = 0).
  { rewrite length_norm2. unfold norm2. cbn. replace (0 * 0 + 0 * 0) with 0 by ring. apply sqrt_0. }
  split; [exact H0 | apply steer_at_rest, H0].
Defined.

(** ** Driving straight never crashes *)

(** A car on the straight line of the spawn point: at [x = 100], with no
    sideways speed, facing [+y]. *)
Definition straight_car (car : Car.t R) : Prop :=
  Vec2.x (Car.pos car) = 100 /\ Vec2.x (Car.vel car) = 0 /\ Car.direction car = Vec2.new 0 1.

Lemma integrate_straight (car : Car.t R) : straight_car car -> straight_car (integrate car).
Proof.
  destruct car as [[px py] [vx vy] [dx dy] a t]. unfold straight_car.
  cbn [Car.pos Car.vel Car.direction Vec2.x]. intros (-> & -> & Hd). injection Hd as -> ->.
  unfold integrate, Car.with_vel, Car.with_pos, Vec2.normalize, Vec2.length_recip, Vec2.add, Vec2.mul.
  cbn [Car.pos Car.vel Car.direction Car.base_acc Car.top_speed Vec2.x Vec2.y
       fadd fmul fdiv of_Z Scalar_R].
  destruct (fltb _ _); cbn [Car.pos Car.vel Car.direction Vec2.x Vec2.y fadd fmul fdiv Scalar_R];
    (split; [ring | split; [ring | reflexivity]]).
Qed.

Lemma collision_spec_straight (os : list (Obstacle.t R)) (car : Car.t R) :
  straight_car car -> straight_car (collision_spec os car).
Proof.
  intros (Hx & Hv & Hd). unfold collision_spec. destruct (existsb _ _); [|split; auto].
  split; [reflexivity | split; [reflexivity | exact Hd]].
Qed.

(** Every obstacle of [lv1_turns] is at least 300 away in [x] from the
    line [x = 100]: no car on that line is within 100 of it. *)
Lemma hits_straight_lv1 (car : Car.t R) (o : Obstacle.t R) :
  straight_car car ->
  (exists num xpos, In (num, xpos) lv1_turns /\
     (Vec2.x (Obstacle.pos o) = xpos + left_side \/ Vec2.x (Obstacle.pos o) = xpos - left_side)) ->
  hits car o = false.
Proof.
  intros (Hx & _ & _) (num & xpos & Hin & Hox). apply fltb_R_false.
  unfold Vec2.distance. rewrite length_norm2. unfold norm2, Vec2.sub.
  cbn [Vec2.x Vec2.y fsub of_Z Scalar_R]. rewrite Hx.
  set (dy := Vec2.y (Car.pos car) - Vec2.y (Obstacle.pos o)).
  assert (Hdx : 300 * 300 <= (100 - Vec2.x (Obstacle.pos o)) * (100 - Vec2.x (Obstacle.pos o))).
  { unfold left_side in Hox. cbn [lv1_turns In of_Z Scalar_R] in Hin.
    cbn [fadd fsub of_Z Scalar_R] in Hox.
    destruct Hin as [Hin | [Hin | [Hin | []]]]; injection Hin as <- <-;
      destruct Hox as [-> | ->]; lra. }
  rewrite <- (sqrt_square 100) at 1 by lra. apply sqrt_le_1_alt.
  assert (0 <= dy * dy) by nra. nra.
Qed.

Section Straight.
Context `{Display R}.

Definition straight_world (w : world R) : Prop :=
  Forall (fun q => straight_car (fst (fst q))) (cars w).

Lemma run_system_straight (inp : FrameInput R) (s : System) (w w' : world R) :
  no_steering inp -> straight_world w -> run_system inp s w = Ok w' -> straight_world w'.
Proof.
  intros [HA HD] Hw Hr. unfold straight_world in *.
  destruct s; cbn [run_system] in Hr; unfold omap in Hr.
  - outcome_inv. cbn [with_cars cars]. apply Forall_map. eapply Forall_impl; [|exact Hw].
    intros [[car tf] tex] Hc. rewrite sprite_movement_car_eq. cbn [fst] in *.
    replace (fst (steer (keyboard inp) car)) with car
      by (unfold steer; rewrite HA, HD; reflexivity).
    apply integrate_straight, Hc.
  - outcome_inv. exact Hw.
  - outcome_inv. exact Hw.
  - unfold car_components in Hr.
    destruct (cars w) as [|[[car tf] tex] [|]] eqn:Ew; cbn [map fst] in Hr;
      [cbn in Hr; discriminate | | cbn in Hr; discriminate].
    rewrite collision_update_system_single in Hr. cbn [obind] in Hr. outcome_inv.
    cbn [with_cars cars write_cars]. inversion Hw as [|? ? Hc _]; subst.
    constructor; [apply collision_spec_straight, Hc | constructor].
Qed.

Lemma run_systems_straight (inp : FrameInput R) (order : list System) (w w' : world R) :
  no_steering inp -> straight_world w -> run_systems inp order w = Ok w' -> straight_world w'.
Proof.
  intros Hinp. revert w. induction order as [|s order IH]; intros w Hw Hr; cbn in Hr.
  - outcome_inv. exact Hw.
  - outcome_inv. eapply IH; [eapply run_system_straight|]; eassumption.
Qed.

Lemma reachable_straight (w : world R) : reachable_under no_steering w -> straight_world w.
Proof.
  induction 1 as [|inp w w' Hinp _ IH Hf].
  - constructor; [|constructor]. split; [reflexivity | split; reflexivity].
  - inversion Hf as [order ? ? _ Hrun]; subst. eapply run_systems_straight; eassumption.
Qed.

(** C17: in exact arithmetic, in every world the program reaches by
    frames in which neither steering key is held (in whatever order the
    systems run), the car is on the line [x = 100] and no obstacle of the
    level is within 100 of it: [collision_update_system] leaves it as it
    is.  Driving straight never crashes, however long. *)
Theorem straight_driving_never_collides (w : world R) :
  reachable_under no_steering w ->
  exists car tf tex,
    cars w = [(car, tf, tex)] /\ Vec2.x (Car.pos car) = 100 /\
    collision_update_system (obstacle_components (obstacles w)) [car] = Ok [car].
Proof.
  intros Hr.
  destruct (reachable_world_inv w (reachable_under_reachable _ w Hr)) as (Hlen & _ & _ & Hobs).
  pose proof (reachable_straight w Hr) as Hs. unfold straight_world in Hs.
  destruct (cars w) as [|[[car tf] tex] [|]]; try discriminate.
  inversion Hs as [|? ? Hc _]; subst.
  exists car, tf, tex. split; [reflexivity|]. split; [apply Hc|].
  rewrite collision_update_system_single. unfold collision_spec.
  rewrite existsb_false_Forall; [reflexivity|].
  rewrite Hobs. unfold obstacle_components, setup_obstacles. apply Forall_map.
  eapply Forall_impl; [|apply spawn_turns_x]. intros q Hq. apply hits_straight_lv1; assumption.
Qed.
End Straight.

(** A [Display R] for the witness: the HUD string plays no part in the
    theorem. *)
Definition Display_R_example : Display R := {| display := fun _ => EmptyString |}.
#[local] Existing Instance Display_R_example.

Lemma straight_driving_never_collides_witness :
  reachable_under no_steering setup_world /\
  exists car tf tex,
    cars setup_world = [(car, tf, tex)] /\ Vec2.x (Car.pos car) = 100 /\
    collision_update_system (obstacle_components (obstacles setup_world)) [car] = Ok [car].
Proof.
  split; [constructor | apply straight_driving_never_collides; constructor].
Defined.
