(* ===== verification/Run32.v ===== *)
(** * Concrete binary32 runs of the program

    The program's arithmetic is f32; here the systems are run in the
    [Binary32] instance, bit for bit.  The theorems quantify over the
    [Std f32] (libm) and [Display f32] instances, which the car's logical
    state never reads when no steering key is held.

    - [drive_car] iterates the car part of [sprite_movement] (steering,
      then [integrate]).  From the spawned car with no key held, the speed
      grows by exactly 1 per frame for 40 frames ([straight_run_accelerates]),
      and from then on alternates forever between 40 and 39.999996
      ([straight_run_oscillates]): [normalize] multiplies by the rounded
      [1/41], and [41 * fl(1/41) * 40] rounds below 40.
    - In the whole program (the four systems in whatever order Bevy picks
      in each frame, any number of frames, collisions included), while no
      steering key is held the car is always a state of that run, so its
      f32 speed never exceeds [top_speed] and it keeps facing [+y]
      ([reachable_no_steering_speed_bound]).  For the first 200 frames,
      by which the car has passed the last cone, no collision ever resets
      it: after [n] frames it is exactly the car of [n] frames of
      [drive_car] ([straight_run_no_collision]).
    - With the velocity off the axis the f32 clamp does not guarantee the
      bound: [integrate_exceeds_top_speed] is a car that leaves
      [integrate] faster than [top_speed].
    - At [y = 2^30] the f32 addition [pos + vel] rounds back and the car
      stops ([straight_run_stalls]). *)

From Stdlib Require Import ZArith String List Bool Permutation Floats.SpecFloat Lia.
From S2P Require Import Prelude Vec Binary32 Car Obstacles World.
Import ListNotations.

Local Open Scope scalar_scope.

(** [39.999996f32], the f32 just below 40 ([0x421FFFFF]). *)
Definition below_40 : f32 := S754_finite false 10485759 (-18).

Example below_40_bits : to_bits below_40 = 1109393407%Z.
Proof. reflexivity. Qed.

Section Drive.
Context `{Std f32}.

(** The car component after [n] frames of [sprite_movement] with the
    keyboard [kb] held. *)
Fixpoint drive_car (kb : ButtonInput) (n : nat) (car : Car.t f32) : Car.t f32 :=
  match n with
  | O => car
  | S n => drive_car kb n (integrate (fst (steer kb car)))
  end.

Lemma drive_car_add (kb : ButtonInput) (n m : nat) (car : Car.t f32) :
  drive_car kb (n + m) car = drive_car kb m (drive_car kb n car).
Proof. revert car. induction n as [|n IH]; intros car; [reflexivity|]. apply IH. Qed.

(** [drive_car] is the car of the query after [sprite_movement]. *)
Lemma drive_car_sprite_movement (kb : ButtonInput) (car : Car.t f32) tf tex :
  fst (fst (sprite_movement_car kb (car, tf, tex))) = drive_car kb 1 car.
Proof. rewrite sprite_movement_car_eq. reflexivity. Qed.

(** A car at the speed cap, facing [+y]: the two frames after it bring it
    back to the cap, through [below_40], wherever it is. *)
Definition at_cap (car : Car.t f32) : Prop :=
  Car.vel car = Vec2.new #0 #40 /\ Car.direction car = Vec2.new #0 #1 /\
  Car.base_acc car = #1 /\ Car.top_speed car = #40.

Lemma at_cap_two_frames (car : Car.t f32) :
  at_cap car ->
  Car.vel (drive_car no_keys 1 car) = Vec2.new #0 below_40 /\ at_cap (drive_car no_keys 2 car).
Proof.
  destruct car as [p v d a t]. intros (Hv & Hd & Ha & Ht). cbn in Hv, Hd, Ha, Ht. subst.
  split; [vm_compute; reflexivity|].
  repeat split; vm_compute; reflexivity.
Qed.

(** From frame 40 on, every other frame finds the spawned car at the
    cap. *)
Lemma at_cap_cycle (k : nat) : at_cap (drive_car no_keys (40 + 2 * k) initial_car).
Proof.
  induction k as [|k IH]; [repeat split; vm_compute; reflexivity|].
  replace (40 + 2 * S k)%nat with ((40 + 2 * k) + 2)%nat by lia.
  rewrite drive_car_add. exact (proj2 (at_cap_two_frames _ IH)).
Qed.

(** A frame with neither steering key held drives as [no_keys] does. *)
Lemma drive_car_no_steering (kb : ButtonInput) (car : Car.t f32) :
  pressed kb KeyA = false -> pressed kb KeyD = false ->
  drive_car kb 1 car = drive_car no_keys 1 car.
Proof.
  intros HA HD. cbn [drive_car]. rewrite (steer_no_steering kb car HA HD). reflexivity.
Qed.

Lemma drive_car_constants (n : nat) :
  Car.direction (drive_car no_keys n initial_car) = Vec2.new #0 #1 /\
  Car.base_acc (drive_car no_keys n initial_car) = #1 /\
  Car.top_speed (drive_car no_keys n initial_car) = #40.
Proof.
  induction n as [|n (Hd & Ha & Ht)]; [exact (conj eq_refl (conj eq_refl eq_refl))|].
  replace (S n) with (n + 1)%nat by lia. rewrite drive_car_add. cbn [drive_car].
  rewrite (steer_no_steering no_keys _ eq_refl eq_refl). cbn [fst].
  destruct (integrate_unchanged_fields (drive_car no_keys n initial_car)) as (Hd' & Ha' & Ht').
  rewrite Hd', Ha', Ht'. auto.
Qed.

(** [collision_update_system]'s reset takes every state of the run back
    to the spawned car. *)
Lemma reset_drive_car (n : nat) : reset (drive_car no_keys n initial_car) = initial_car.
Proof.
  destruct (drive_car_constants n) as (Hd & Ha & Ht).
  destruct (drive_car no_keys n initial_car) as [p v d a t].
  cbn [Car.direction Car.base_acc Car.top_speed] in Hd, Ha, Ht. subst. reflexivity.
Qed.

(** Every state of the run is within the speed cap, in f32. *)
Lemma drive_car_speed (n : nat) :
  SFleb (Vec2.length (Car.vel (drive_car no_keys n initial_car))) #40 = true.
Proof.
  destruct (Nat.le_gt_cases n 40) as [Hn | Hn].
  - do 41 (destruct n as [|n]; [vm_compute; reflexivity|]). lia.
  - destruct (Nat.Even_or_Odd n) as [[k ->] | [k ->]].
    + replace (2 * k)%nat with (40 + 2 * (k - 20))%nat by lia.
      rewrite (proj1 (at_cap_cycle (k - 20))). vm_compute. reflexivity.
    + replace (2 * k + 1)%nat with ((40 + 2 * (k - 20)) + 1)%nat by lia.
      rewrite drive_car_add, (proj1 (at_cap_two_frames _ (at_cap_cycle (k - 20)))).
      vm_compute. reflexivity.
Qed.
End Drive.

(** ** The straight-line run *)

Section StraightRun.
Context `{Std f32}.

(** C12: from the spawned car, with no key held, frame [n <= 40] of
    [sprite_movement] has the car at [(100, n(n+1)/2)] moving at [(0, n)]:
    the speed grows by exactly 1 per frame up to the cap, with no
    rounding. *)
Theorem straight_run_accelerates (n : nat) :
  (n <= 40)%nat ->
  drive_car no_keys n initial_car =
  Car.mk (Vec2.new #100 (of_Z (Z.of_nat (n * (n + 1) / 2)))) (Vec2.new #0 (of_Z (Z.of_nat n)))
         (Vec2.new #0 #1) #1 #40.
Proof.
  intros Hn. do 41 (destruct n as [|n]; [vm_compute; reflexivity|]). lia.
Qed.

(** C13: from frame 40 on, the f32 speed clamp makes the velocity
    alternate forever between [(0, 40)] on even frames and
    [(0, 39.999996)] on odd ones: it never settles at [top_speed]. *)
Theorem straight_run_oscillates (k : nat) :
  Car.vel (drive_car no_keys (40 + 2 * k) initial_car) = Vec2.new #0 #40 /\
  Car.vel (drive_car no_keys (41 + 2 * k) initial_car) = Vec2.new #0 below_40.
Proof.
  split; [apply (at_cap_cycle k)|].
  replace (41 + 2 * k)%nat with ((40 + 2 * k) + 1)%nat by lia.
  rewrite drive_car_add. exact (proj1 (at_cap_two_frames _ (at_cap_cycle k))).
Qed.

End StraightRun.

(** ** The whole program with no steering key held *)

Section SingleCar.
Context `{Std f32}.

(** What one system does to the only car, given the obstacles. *)
Definition car_of_step (inp : FrameInput f32) (os : list (Obstacle.t f32)) (car : Car.t f32)
    (s : System) : Car.t f32 :=
  match s with
  | SpriteMovement => drive_car (keyboard inp) 1 car
  | CollisionUpdate => collision_spec os car
  | TextUpdate | ObstacleUpdate => car
  end.

Lemma run_car_steps_single (inp : FrameInput f32) (order : list System)
    (os : list (Obstacle.t f32)) (car : Car.t f32) tf tex v :
  run_car_steps inp order ([(car, tf, tex)], os) = Ok v ->
  exists tf' tex', v = ([(fold_left (car_of_step inp os) order car, tf', tex')], os).
Proof.
  revert car tf tex. induction order as [|s order IH]; intros car tf tex Hr;
    cbn [run_car_steps] in Hr; [outcome_inv; eauto|].
  destruct s; cbn [car_step fst snd] in Hr.
  - cbn [sprite_movement map obind] in Hr. rewrite sprite_movement_car_eq in Hr.
    exact (IH _ _ _ Hr).
  - exact (IH _ _ _ Hr).
  - exact (IH _ _ _ Hr).
  - unfold car_components in Hr. cbn [map fst] in Hr.
    rewrite collision_update_system_single in Hr. unfold omap in Hr.
    cbn [obind write_cars] in Hr. exact (IH _ _ _ Hr).
Qed.

(** The states of the straight run from the spawned car. *)
Definition straight_state (car : Car.t f32) : Prop :=
  exists n, car = drive_car no_keys n initial_car.

Lemma fold_car_of_step_straight (inp : FrameInput f32) (os : list (Obstacle.t f32))
    (order : list System) (car : Car.t f32) :
  no_steering inp -> straight_state car -> straight_state (fold_left (car_of_step inp os) order car).
Proof.
  intros [HA HD]. revert car. induction order as [|s order IH]; intros car Hs; [exact Hs|].
  apply IH. destruct Hs as [n ->]. destruct s; cbn [car_of_step]; try (exists n; reflexivity).
  - rewrite (drive_car_no_steering _ _ HA HD), <- drive_car_add. eexists; reflexivity.
  - unfold collision_spec. destruct (existsb _ _); [|exists n; reflexivity].
    exists 0%nat. exact (reset_drive_car n).
Qed.

Section Frames.
Context `{Display f32}.

Lemma reachable_straight_state (w : world f32) :
  reachable_under no_steering w ->
  exists car tf tex, cars w = [(car, tf, tex)] /\ straight_state car.
Proof.
  induction 1 as [|inp w w' Hinp _ IH Hf].
  - do 3 eexists. split; [reflexivity | exists 0%nat; reflexivity].
  - destruct IH as (car & tf & tex & Hc & Hs). destruct Hf as [order w0 w1 _ Hrun].
    apply run_systems_car_view in Hrun. unfold car_view in Hrun. rewrite Hc in Hrun.
    apply run_car_steps_single in Hrun as (tf' & tex' & Hv). injection Hv as Hc' _.
    do 3 eexists. split; [exact Hc' | apply fold_car_of_step_straight; assumption].
Qed.

(** C4: in the whole program, in f32, whatever order Bevy runs the four
    systems in each frame and however many frames have run (collisions
    included), while no steering key is held the only car is never
    faster than its [top_speed] ([length(vel) <= top_speed] as f32) and
    still faces [+y]: the speed bound of spec sections 3 and 8 holds for the
    program's arithmetic on every straight run. *)
Theorem reachable_no_steering_speed_bound (w : world f32) :
  reachable_under no_steering w ->
  exists car, car_components (cars w) = [car] /\
    SFleb (Vec2.length (Car.vel car)) (Car.top_speed car) = true /\
    Car.direction car = Vec2.new #0 #1.
Proof.
  intros Hr. destruct (reachable_straight_state w Hr) as (car & tf & tex & Hc & n & ->).
  exists (drive_car no_keys n initial_car). unfold car_components. rewrite Hc.
  destruct (drive_car_constants n) as (Hd & _ & Ht). rewrite Ht.
  split; [reflexivity | split; [apply drive_car_speed | exact Hd]].
Qed.

(** A boolean check that the run from [car] meets no obstacle of [os]
    for [n + 1] frames. *)
Fixpoint clear_run (os : list (Obstacle.t f32)) (n : nat) (car : Car.t f32) : bool :=
  negb (existsb (hits car) os) &&
  match n with
  | O => true
  | S n => clear_run os n (drive_car no_keys 1 car)
  end.

Lemma clear_run_sound (os : list (Obstacle.t f32)) (n : nat) (car : Car.t f32) :
  clear_run os n car = true ->
  forall m, (m <= n)%nat -> collision_spec os (drive_car no_keys m car) = drive_car no_keys m car.
Proof.
  unfold collision_spec. revert car. induction n as [|n IH]; intros car Hc m Hm;
    cbn [clear_run] in Hc; apply andb_prop in Hc as [Hh Hrest]; apply negb_true_iff in Hh.
  - assert (m = 0)%nat as -> by lia. cbn [drive_car]. rewrite Hh. reflexivity.
  - destruct m as [|m]; [cbn [drive_car]; rewrite Hh; reflexivity|].
    change (S m) with (1 + m)%nat. rewrite drive_car_add. apply IH; [exact Hrest | lia].
Qed.

Lemma straight_run_clear (m : nat) :
  (m <= 200)%nat ->
  collision_spec (obstacle_components (setup_obstacles lv1_turns)) (drive_car no_keys m initial_car) =
  drive_car no_keys m initial_car.
Proof. apply clear_run_sound. vm_compute. reflexivity. Qed.

(** C14: in the whole program, in f32, whatever order Bevy runs the four
    systems in each of the first [n <= 200] frames, with no steering key
    held and whatever the clock says, no collision ever resets the car:
    after [n] frames it is the car [sprite_movement] alone gives after
    [n] frames (by frame 200 it is past the last cone). *)
Theorem straight_run_no_collision (w : world f32) (n : nat) :
  (n <= 200)%nat -> reachable_after no_steering n w ->
  car_components (cars w) = [drive_car no_keys n initial_car].
Proof.
  intros Hn Hr. revert Hn.
  induction Hr as [|n inp w w' Hinp Hr IH Hf]; intros Hn; [reflexivity|].
  destruct (reachable_world_inv w (reachable_under_reachable _ _ (reachable_after_under _ _ _ Hr)))
    as (_ & _ & _ & Hobs).
  specialize (IH ltac:(lia)). unfold car_components in IH |- *.
  destruct (cars w) as [|[[car tf] tex] [|]] eqn:Ec; try discriminate.
  cbn [map fst] in IH. injection IH as ->.
  destruct Hf as [order w0 w1 Hp Hrun]. destruct Hinp as [HA HD].
  apply run_systems_car_view in Hrun. unfold car_view in Hrun. rewrite Ec in Hrun.
  destruct (frame_writers_two_orders order Hp) as [Ho | Ho]; rewrite Ho in Hrun;
    apply run_car_steps_single in Hrun as (tf' & tex' & Hv);
    apply pair_equal_spec in Hv as [Hc _]; rewrite Hc; cbn [map fst fold_left car_of_step];
    apply f_equal2; try reflexivity; rewrite Hobs.
  - rewrite (drive_car_no_steering _ _ HA HD), <- drive_car_add, straight_run_clear by lia.
    rewrite Nat.add_1_r. reflexivity.
  - rewrite straight_run_clear by lia.
    rewrite (drive_car_no_steering _ _ HA HD), <- drive_car_add, Nat.add_1_r. reflexivity.
Qed.
End Frames.
End SingleCar.

(** ** The f32 clamp can overshoot *)

(** A car moving at [(1, 40)] and facing [+y] accelerates to [(1, 41)];
    the clamp rescales it to [40 * fl(1/fl(sqrt 1682))], whose f32 length
    is [40.0000038]: [integrate] leaves it faster than [top_speed], and the
    clamp's own test would fire again. *)
Example integrate_exceeds_top_speed :
  let car := integrate (Car.mk (Vec2.new #100 #0) (Vec2.new #1 #40) (Vec2.new #0 #1) #1 #40) in
  (Car.top_speed car <? Vec2.length (Car.vel car)) = true /\
  to_bits (Vec2.length (Car.vel car)) = 1109393409%Z.
Proof. split; vm_compute; reflexivity. Qed.

(** ** Where f32 stops the car *)

Section Stall.
Context `{Std f32}.

(** [2^30]: from here on the f32 spacing is 128, and [y + 40] rounds
    back to [y]. *)
Definition stall_height : f32 := of_Z (2 ^ 30).

Definition stalled_at_cap : Car.t f32 :=
  Car.mk (Vec2.new #100 stall_height) (Vec2.new #0 #40) (Vec2.new #0 #1) #1 #40.
Definition stalled_below_cap : Car.t f32 :=
  Car.mk (Vec2.new #100 stall_height) (Vec2.new #0 below_40) (Vec2.new #0 #1) #1 #40.

Lemma stalled_step (car : Car.t f32) :
  car = stalled_at_cap \/ car = stalled_below_cap ->
  drive_car no_keys 1 car = stalled_at_cap \/ drive_car no_keys 1 car = stalled_below_cap.
Proof. intros [-> | ->]; [right | left]; vm_compute; reflexivity. Qed.

(** C15: a car driving straight at the speed cap at [x = 100] that has
    reached [y = 2^30] (about 2.7e7 frames after the start) never moves
    again: in f32, [2^30 + 40] and [2^30 + 39.999996] both round to
    [2^30]. *)
Theorem straight_run_stalls (n : nat) :
  Car.pos (drive_car no_keys n stalled_at_cap) = Vec2.new #100 stall_height.
Proof.
  assert (Hs : forall m car, car = stalled_at_cap \/ car = stalled_below_cap ->
            drive_car no_keys m car = stalled_at_cap \/ drive_car no_keys m car = stalled_below_cap).
  { induction m as [|m IH]; intros car Hc; [exact Hc|].
    change (S m) with (1 + m)%nat. rewrite drive_car_add. apply IH, stalled_step, Hc. }
  destruct (Hs n stalled_at_cap (or_introl eq_refl)) as [-> | ->]; reflexivity.
Qed.
End Stall.

(** ** Witnesses *)

#[local] Existing Instance Std_f32_example.

Lemma straight_run_accelerates_witness :
  (40 <= 40)%nat /\
  drive_car no_keys 40 initial_car =
  Car.mk (Vec2.new #100 (of_Z (Z.of_nat (40 * (40 + 1) / 2)))) (Vec2.new #0 (of_Z (Z.of_nat 40)))
         (Vec2.new #0 #1) #1 #40.
Proof. split; [lia | apply straight_run_accelerates; lia]. Defined.

(** With the example libm of [Binary32] standing in for Rust's, holding
    [A] from the start steers the car off the axis, and at frame 47 the
    clamp leaves it faster than [top_speed]; after 1000 such frames the
    facing direction, which the spec calls a unit vector, has f32 length
    [0.9999986] ([0x3F7FFFEE]). *)
Example steering_run_exceeds_top_speed :
  (Car.top_speed (drive_car keys_A 47 initial_car) <?
     Vec2.length (Car.vel (drive_car keys_A 47 initial_car))) = true.
Proof. vm_compute. reflexivity. Qed.

Example steering_run_direction_drift :
  to_bits (Vec2.length (Car.direction (drive_car keys_A 1000 initial_car))) = 1065353198%Z.
Proof. vm_compute. reflexivity. Qed.

#[local] Existing Instance Display_f32_example.

Lemma example_input_no_steering : no_steering example_input.
Proof. split; reflexivity. Qed.

Lemma first_frame_step : frame example_input setup_world first_frame_world.
Proof. apply (frame_intro _ all_systems); [reflexivity | vm_compute; reflexivity]. Qed.

Lemma reachable_no_steering_speed_bound_witness :
  reachable_under no_steering first_frame_world /\
  exists car, car_components (cars first_frame_world) = [car] /\
    SFleb (Vec2.length (Car.vel car)) (Car.top_speed car) = true /\
    Car.direction car = Vec2.new #0 #1.
Proof.
  assert (Hr : reachable_under no_steering first_frame_world)
    by (eapply reachable_under_frame;
        [exact example_input_no_steering | constructor | exact first_frame_step]).
  split; [exact Hr | apply reachable_no_steering_speed_bound; exact Hr].
Defined.

Lemma straight_run_no_collision_witness :
  (1 <= 200)%nat /\ reachable_after no_steering 1 first_frame_world /\
  car_components (cars first_frame_world) = [drive_car no_keys 1 initial_car].
Proof.
  assert (Hr : reachable_after no_steering 1 first_frame_world)
    by (eapply reachable_after_frame;
        [exact example_input_no_steering | constructor | exact first_frame_step]).
  split; [lia | split; [exact Hr | apply (straight_run_no_collision _ 1); [lia | exact Hr]]].
Defined.
